(** * pydeck [bindings/json_tools.py]: a shallow embedding and its properties

    The module turns an object's attribute dictionary into JSON text.
    Text is modelled by [string] (one [ascii] per character; case
    mapping is the ASCII one, characters outside [a-z]/[A-Z] have no
    case).  A Python [dict] is an association list in insertion order
    whose keys are pairwise distinct.  Dictionaries that the code
    mutates in place live in a heap, addressed by location. *)

From Stdlib Require Import ZArith Lia Bool Sorted.
From Stdlib Require Import Ascii String DecimalString.
From stdpp Require Import base list strings.

Set Warnings "-register-all".

#[local] Arguments String.append !_ _ / : simpl nomatch.
#[local] Arguments Ascii.eqb : simpl never.

Local Open Scope string_scope.
Local Open Scope list_scope.

(** ** Text primitives *)

Module Text.

Definition is_lower (c : ascii) : bool :=
  let n := nat_of_ascii c in (97 <=? n)%nat && (n <=? 122)%nat.

Definition is_upper (c : ascii) : bool :=
  let n := nat_of_ascii c in (65 <=? n)%nat && (n <=? 90)%nat.

(** [c.upper()] for a one-character string *)
Definition upper (c : ascii) : ascii :=
  if is_lower c then ascii_of_nat (nat_of_ascii c - 32) else c.

(** [c.lower()] for a one-character string *)
Definition lower (c : ascii) : ascii :=
  if is_upper c then ascii_of_nat (nat_of_ascii c + 32) else c.

Definition underscore : ascii := "_"%char.

(** [p] is a prefix of [s] *)
Fixpoint starts_with (p s : string) : bool :=
  match p, s with
  | EmptyString, _ => true
  | String a p', String b s' => if Ascii.eqb a b then starts_with p' s' else false
  | String _ _, EmptyString => false
  end.

(** [p in s] on strings *)
Fixpoint contains (p s : string) : bool :=
  starts_with p s ||
  match s with
  | EmptyString => false
  | String _ s' => contains p s'
  end.

(** [s[n:]] *)
Fixpoint drop (n : nat) (s : string) : string :=
  match n, s with
  | O, _ => s
  | S _, EmptyString => EmptyString
  | S n', String _ s' => drop n' s'
  end.

End Text.

(** ** Key Transformer *)

(** The loop of [to_camel_case]: [should_upper_case] is the pending
    flag, the result is what the loop appends to [output_str]. *)
Fixpoint to_camel_case_loop (should_upper_case : bool) (snake_case : string) : string :=
  match snake_case with
  | EmptyString => EmptyString
  | String c rest =>
      if Ascii.eqb c Text.underscore then to_camel_case_loop true rest
      else String (if should_upper_case then Text.upper c else c)
                  (to_camel_case_loop false rest)
  end.

Definition to_camel_case (snake_case : string) : string :=
  to_camel_case_loop false snake_case.

(** [s[:1].lower() + s[1:] if s else ""] *)
Definition lower_first_letter (s : string) : string :=
  match s with
  | EmptyString => EmptyString
  | String c rest => String (Text.lower c) rest
  end.

Definition camel_and_lower (w : string) : string :=
  lower_first_letter (to_camel_case w).

(** ** Values, dictionaries, exceptions *)

Abbreviation loc := nat (only parsing).

(** The Python values the module handles.  An instance is identified
    with the location of its attribute dictionary ([vars(o)]); nested
    dictionaries and lists are finite trees (cyclic structures are out
    of scope).  Dictionary keys are strings, as attribute names are. *)
Inductive value : Type :=
| VNone
| VBool (b : bool)
| VInt (n : Z)
| VStr (s : string)
| VList (items : list value)
| VDict (entries : list (string * value))
| VObj (o : loc).

Abbreviation dict := (list (string * value)) (only parsing).

Inductive exn : Type :=
| NameError (name : string)
| KeyError (key : string)
| TypeError
| ValueError
| RecursionError
| InvalidLocation (l : loc).   (* a location that names no object: outside Python *)

Inductive result (A : Type) : Type :=
| Ok (a : A)
| Raise (e : exn).
Arguments Ok {A} a.
Arguments Raise {A} e.

(** [x is None], [isinstance(x, dict)], truth value *)
Definition is_none (v : value) : bool :=
  match v with VNone => true | _ => false end.

Definition is_dict (v : value) : bool :=
  match v with VDict _ => true | _ => false end.

Definition truthy (v : value) : bool :=
  match v with
  | VNone => false
  | VBool b => b
  | VInt n => negb (n =? 0)%Z
  | VStr s => negb (String.eqb s "")
  | VList items => match items with [] => false | _ => true end
  | VDict entries => match entries with [] => false | _ => true end
  | VObj _ => true
  end.

Module Dict.

Definition keys (d : dict) : list string := map fst d.

(** the invariant of a Python dictionary: no key occurs twice *)
Definition wf (d : dict) : Prop := NoDup (keys d).

Fixpoint lookup (k : string) (d : dict) : option value :=
  match d with
  | [] => None
  | (k', v) :: d' => if String.eqb k k' then Some v else lookup k d'
  end.

(** the entries left when [k] is deleted *)
Fixpoint remove (k : string) (d : dict) : dict :=
  match d with
  | [] => []
  | (k', v) :: d' => if String.eqb k k' then d' else (k', v) :: remove k d'
  end.

(** [d[k] = v]: an existing key keeps its position, a new one goes last *)
Fixpoint store (k : string) (v : value) (d : dict) : dict :=
  match d with
  | [] => [(k, v)]
  | (k', v') :: d' =>
      if String.eqb k k' then (k, v) :: d' else (k', v') :: store k v d'
  end.

End Dict.

(** ** Heap and the state-and-exception monad *)

Abbreviation heap := (list dict) (only parsing).

Definition M (A : Type) : Type := heap -> result A * heap.

Definition ret {A} (a : A) : M A := fun h => (Ok a, h).

Definition raise {A} (e : exn) : M A := fun h => (Raise e, h).

Definition bind {A B} (m : M A) (k : A -> M B) : M B :=
  fun h => match m h with
           | (Ok a, h') => k a h'
           | (Raise e, h') => (Raise e, h')
           end.

Notation "'let*' x ':=' e 'in' k" := (bind e (fun x => k))
  (at level 10, x name, e at level 100, k at level 200, only parsing).
Notation "e ';;' k" := (bind e (fun _ => k))
  (at level 100, k at level 200, right associativity, only parsing).

Definition lift {A} (r : result A) : M A :=
  match r with Ok a => ret a | Raise e => raise e end.

(** [for x in xs: body(x)] *)
Fixpoint for_each {A} (xs : list A) (body : A -> M unit) : M unit :=
  match xs with
  | [] => ret tt
  | x :: xs' => body x;; for_each xs' body
  end.

(** [[f(x) for x in xs]] *)
Fixpoint map_M {A B} (f : A -> M B) (xs : list A) : M (list B) :=
  match xs with
  | [] => ret []
  | x :: xs' => let* y := f x in let* ys := map_M f xs' in ret (y :: ys)
  end.

Module Heap.

Definition read (l : loc) : M dict :=
  fun h => match h !! l with
           | Some d => (Ok d, h)
           | None => (Raise (InvalidLocation l), h)
           end.

Definition write (l : loc) (d : dict) : M unit :=
  fun h => match h !! l with
           | Some _ => (Ok tt, <[l := d]> h)
           | None => (Raise (InvalidLocation l), h)
           end.

(** a new dictionary object: its location is one no object had *)
Definition alloc (d : dict) : M loc :=
  fun h => (Ok (length h), h ++ [d]).

(** [list(attrs.keys())] *)
Definition keys (attrs : loc) : M (list string) :=
  let* d := read attrs in ret (Dict.keys d).

(** [attrs.get(k)] *)
Definition get (attrs : loc) (k : string) : M value :=
  let* d := read attrs in
  ret (match Dict.lookup k d with Some v => v | None => VNone end).

(** [del attrs[k]] *)
Definition delitem (attrs : loc) (k : string) : M unit :=
  let* d := read attrs in
  match Dict.lookup k d with
  | Some _ => write attrs (Dict.remove k d)
  | None => raise (KeyError k)
  end.

(** [attrs.pop(k)] *)
Definition pop (attrs : loc) (k : string) : M value :=
  let* d := read attrs in
  match Dict.lookup k d with
  | Some v => write attrs (Dict.remove k d);; ret v
  | None => raise (KeyError k)
  end.

(** [attrs[k] = v] *)
Definition setitem (attrs : loc) (k : string) (v : value) : M unit :=
  let* d := read attrs in write attrs (Dict.store k v d).

End Heap.

(** [vars(o)]: the instance's own attribute dictionary, not a copy *)
Definition vars (o : loc) : M loc :=
  let* _ := Heap.read o in ret o.

(** ** Key Remapper *)

Definition has_underscore (key : string) : bool := Text.contains "_" key.

Definition lower_camel_case_keys (attrs : loc) : M unit :=
  let* snapshot := Heap.keys attrs in
  for_each snapshot (fun snake_key =>
    if negb (has_underscore snake_key) then ret tt
    else
      let camel_key := camel_and_lower snake_key in
      let* v := Heap.pop attrs snake_key in
      Heap.setitem attrs camel_key v).

(** ** Attribute Filter *)

Definition IGNORE_KEYS : list string :=
  [ "mapbox_key"; "google_maps_key"; "deck_widget";
    "binary_data_sets"; "_binary_data"; "_kwargs" ].

(** the loop over [IGNORE_KEYS], shared by both serializers *)
Definition drop_ignored (attrs : loc) : M unit :=
  for_each IGNORE_KEYS (fun ignore_attr =>
    let* v := Heap.get attrs ignore_attr in
    if truthy v then Heap.delitem attrs ignore_attr else ret tt).

(** [if remap_function: remap_function(attrs)] *)
Definition apply_remap (remap_function : option (loc -> M unit)) (attrs : loc) : M unit :=
  match remap_function with
  | Some f => f attrs
  | None => ret tt
  end.

Definition default_serialize (o : loc) (remap_function : option (loc -> M unit)) : M loc :=
  let* attrs := vars o in
  let* d := Heap.read attrs in
  let* attrs := Heap.alloc (List.filter (fun kv => negb (is_none (snd kv))) d) in
  drop_ignored attrs;;
  apply_remap remap_function attrs;;
  ret attrs.

(** the default value of the [remap_function] parameter *)
Definition default_remap : option (loc -> M unit) := Some lower_camel_case_keys.

(** ** Text of numbers and strings *)

Module Render.

Definition dquote : ascii := ascii_of_nat 34.
Definition apostrophe : ascii := ascii_of_nat 39.
Definition backslash : ascii := ascii_of_nat 92.

Definition char (c : ascii) : string := String c EmptyString.

(** decimal text of an integer: [str(n)], and JSON's number text *)
Definition int_text (n : Z) : string :=
  DecimalString.NilZero.string_of_int (Z.to_int n).

Definition hex_digit (n : nat) : ascii :=
  nth n (list_ascii_of_string "0123456789abcdef") "0"%char.

Definition hex2 (n : nat) : string :=
  String (hex_digit (n / 16)) (char (hex_digit (n mod 16))).

(** [sep.join(parts)] *)
Fixpoint join (sep : string) (parts : list string) : string :=
  match parts with
  | [] => EmptyString
  | [p] => p
  | p :: rest => p +:+ sep +:+ join sep rest
  end.

Fixpoint flat_map_chars (f : ascii -> string) (s : string) : string :=
  match s with
  | EmptyString => EmptyString
  | String c rest => f c +:+ flat_map_chars f rest
  end.

(** JSON string text with [ensure_ascii]: everything outside
    space..tilde, the quote and the backslash are escaped *)
Definition json_escape (c : ascii) : string :=
  let n := nat_of_ascii c in
  if (n =? 34)%nat then String backslash (char dquote)
  else if (n =? 92)%nat then String backslash (char backslash)
  else if (n =? 10)%nat then String backslash "n"
  else if (n =? 13)%nat then String backslash "r"
  else if (n =? 9)%nat then String backslash "t"
  else if (n =? 8)%nat then String backslash "b"
  else if (n =? 12)%nat then String backslash "f"
  else if (n <? 32)%nat || (126 <? n)%nat then String backslash ("u00" +:+ hex2 n)
  else char c.

Definition json_string (s : string) : string :=
  String dquote (flat_map_chars json_escape s +:+ char dquote).

(** [repr(s)] of a string: apostrophes around it, unless it holds an
    apostrophe and no double quote *)
Definition repr_quote (s : string) : ascii :=
  if Text.contains (char apostrophe) s && negb (Text.contains (char dquote) s)
  then dquote else apostrophe.

Definition repr_escape (quote c : ascii) : string :=
  let n := nat_of_ascii c in
  if Ascii.eqb c quote || (n =? 92)%nat then String backslash (char c)
  else if (n =? 9)%nat then String backslash "t"
  else if (n =? 10)%nat then String backslash "n"
  else if (n =? 13)%nat then String backslash "r"
  else if (n <? 32)%nat || (n =? 127)%nat
          || ((127 <? n)%nat && (n <? 161)%nat) || (n =? 173)%nat
       then String backslash ("x" +:+ hex2 n)
  else char c.

Definition repr_string (s : string) : string :=
  let q := repr_quote s in
  String q (flat_map_chars (repr_escape q) s +:+ char q).

End Render.

(** ** Token substitution *)

(** the first alternative of the compiled pattern that matches at the
    head of [text]: alternatives are tried in the order of the keys *)
Fixpoint first_match (patterns : list (string * string)) (text : string)
  : option (string * string) :=
  match patterns with
  | [] => None
  | (key, replacement) :: rest =>
      if Text.starts_with key text then Some (key, replacement)
      else first_match rest text
  end.

(** [regex.sub]: one pass over [text]; [skip] counts the characters
    still covered by the match being replaced.  A match of the empty
    key puts its replacement in front of the character it stands at. *)
Fixpoint substitute (patterns : list (string * string)) (skip : nat) (text : string) : string :=
  match text with
  | EmptyString =>
      match first_match patterns EmptyString with
      | Some (_, replacement) => replacement
      | None => EmptyString
      end
  | String c rest =>
      match skip with
      | S skip' => substitute patterns skip' rest
      | O =>
          match first_match patterns text with
          | Some (EmptyString, replacement) =>
              replacement +:+ String c (substitute patterns 0 rest)
          | Some (String _ key', replacement) =>
              replacement +:+ substitute patterns (String.length key') rest
          | None => String c (substitute patterns 0 rest)
          end
      end
  end.

(** With no key at all the pattern is the empty group, which matches
    everywhere, and the lookup of the empty match fails. *)
Definition multiple_replace (patterns : list (string * string)) (text : string) : result string :=
  match patterns with
  | [] => Raise (KeyError EmptyString)
  | _ => Ok (substitute patterns 0 text)
  end.

(** the table built inside [julia_pycall_compatible_serialize] *)
Definition dialect_patterns : list (string * string) :=
  [ (Render.char Render.apostrophe, Render.char Render.dquote);
    ("False", "false");
    ("True", "true") ].

(** ** Standard Serializer *)

(** [sorted(dct.items())], what [sort_keys=True] makes the encoder do *)
Fixpoint insert_item (kv : string * value) (sorted : dict) : dict :=
  match sorted with
  | [] => [kv]
  | kv' :: rest =>
      if String.leb (fst kv) (fst kv') then kv :: sorted
      else kv' :: insert_item kv rest
  end.

Definition sort_items (d : dict) : dict := foldr insert_item [] d.

(** The encoder of [json.dumps(..., sort_keys=True, default=default_serialize)].
    [fuel] is the nesting the interpreter still allows; [markers] are
    the instances being encoded, for the circular-reference check.  A
    value the encoder does not know (an instance) goes through
    [default_serialize] and the dictionary it returns is encoded. *)
Fixpoint iterencode (fuel : nat) (markers : list loc) (v : value) : M string :=
  match fuel with
  | O => raise RecursionError
  | S fuel' =>
      match v with
      | VNone => ret "null"
      | VBool true => ret "true"
      | VBool false => ret "false"
      | VInt n => ret (Render.int_text n)
      | VStr s => ret (Render.json_string s)
      | VList items =>
          let* parts := map_M (iterencode fuel' markers) items in
          ret ("[" +:+ Render.join ", " parts +:+ "]")
      | VDict entries =>
          let* parts :=
            map_M (fun kv =>
                     let* text := iterencode fuel' markers (snd kv) in
                     ret (Render.json_string (fst kv) +:+ ": " +:+ text))
                  (sort_items entries) in
          ret ("{" +:+ Render.join ", " parts +:+ "}")
      | VObj o =>
          if bool_decide (o ∈ markers) then raise ValueError
          else
            let* attrs := default_serialize o default_remap in
            let* d := Heap.read attrs in
            iterencode fuel' (o :: markers) (VDict d)
      end
  end.

Definition serialize (fuel : nat) (serializable : value) : M string :=
  iterencode fuel [] serializable.

(** ** Names the module can see *)

(** the names bound at module level, in the order they are bound *)
Definition module_globals : list string :=
  [ "json"; "re"; "IGNORE_KEYS"; "to_camel_case"; "lower_first_letter";
    "camel_and_lower"; "lower_camel_case_keys"; "default_serialize";
    "serialize"; "multiple_replace"; "all_numpy_to_list";
    "julia_pycall_compatible_serialize"; "JSONMixin" ].

(** Python's built-in functions and types *)
Definition builtins : list string :=
  [ "abs"; "aiter"; "all"; "anext"; "any"; "ascii"; "bin"; "bool";
    "breakpoint"; "bytearray"; "bytes"; "callable"; "chr"; "classmethod";
    "compile"; "complex"; "delattr"; "dict"; "dir"; "divmod"; "enumerate";
    "eval"; "exec"; "filter"; "float"; "format"; "frozenset"; "getattr";
    "globals"; "hasattr"; "hash"; "help"; "hex"; "id"; "input"; "int";
    "isinstance"; "issubclass"; "iter"; "len"; "list"; "locals"; "map";
    "max"; "memoryview"; "min"; "next"; "object"; "oct"; "open"; "ord";
    "pow"; "print"; "property"; "range"; "repr"; "reversed"; "round";
    "set"; "setattr"; "slice"; "sorted"; "staticmethod"; "str"; "sum";
    "super"; "tuple"; "type"; "vars"; "zip"; "__import__" ].

(** looking a free name up: module globals, then built-ins *)
Definition load_global (name : string) : M unit :=
  if bool_decide (name ∈ module_globals ++ builtins) then ret tt
  else raise (NameError name).

(** [list(obj)] *)
Definition py_list (obj : value) : M (list value) :=
  match obj with
  | VList items => ret items
  | VDict entries => ret (map (fun kv => VStr (fst kv)) entries)
  | VStr s => ret (map (fun c => VStr (Render.char c)) (list_ascii_of_string s))
  | _ => raise TypeError
  end.

(** ** Array Normalizer *)

Section ArrayNormalizer.

(** What a call of [is_array] would answer if the name were bound;
    the module binds no such name, so the answer is never asked for. *)
Variable is_array_denotation : value -> bool.

Definition is_array (v : value) : M bool :=
  load_global "is_array";; ret (is_array_denotation v).

Fixpoint all_numpy_to_list (fuel : nat) (obj : value) : M value :=
  match fuel with
  | O => raise RecursionError
  | S fuel' =>
      let* obj :=
        match obj with
        | VDict entries =>
            let* entries' :=
              map_M (fun kv =>
                       let* v' := all_numpy_to_list fuel' (snd kv) in
                       ret (fst kv, v'))
                    entries in
            ret (VDict entries')
        | _ => ret obj
        end in
      let* a := is_array obj in
      if a then
        let* items := py_list obj in
        let* items' :=
          map_M (fun item =>
                   let* ai := is_array item in
                   if ai || is_dict item then all_numpy_to_list fuel' item
                   else ret item)
                items in
        ret (VList items')
      else ret obj
  end.

(** ** Dialect Serializer *)

(** [str(v)] of a container: [repr] of what it holds.  [repr_obj]
    prints an instance. *)
Fixpoint py_repr (repr_obj : loc -> M string) (fuel : nat) (v : value) : M string :=
  match fuel with
  | O => raise RecursionError
  | S fuel' =>
      match v with
      | VNone => ret "None"
      | VBool true => ret "True"
      | VBool false => ret "False"
      | VInt n => ret (Render.int_text n)
      | VStr s => ret (Render.repr_string s)
      | VList items =>
          let* parts := map_M (py_repr repr_obj fuel') items in
          ret ("[" +:+ Render.join ", " parts +:+ "]")
      | VDict entries =>
          let* parts :=
            map_M (fun kv =>
                     let* text := py_repr repr_obj fuel' (snd kv) in
                     ret (Render.repr_string (fst kv) +:+ ": " +:+ text))
                  entries in
          ret ("{" +:+ Render.join ", " parts +:+ "}")
      | VObj o => repr_obj o
      end
  end.

(** An instance nested in the attributes prints through its own
    [__repr__], which for the classes of this package is this very
    function with the default remapping. *)
Fixpoint julia_pycall_compatible_serialize
    (fuel : nat) (serializable : loc) (remap_function : option (loc -> M unit)) : M string :=
  match fuel with
  | O => raise RecursionError
  | S fuel' =>
      let* attrs := vars serializable in
      let* d := Heap.read attrs in
      let* entries :=
        map_M (fun kv =>
                 let* v' := all_numpy_to_list fuel' (snd kv) in
                 ret (fst kv, v'))
              (List.filter (fun kv => negb (is_none (snd kv))) d) in
      let* attrs := Heap.alloc entries in
      drop_ignored attrs;;
      apply_remap remap_function attrs;;
      let* d := Heap.read attrs in
      let* text :=
        py_repr (fun o => julia_pycall_compatible_serialize fuel' o default_remap)
                fuel' (VDict d) in
      lift (multiple_replace dialect_patterns text)
  end.

End ArrayNormalizer.

(** ** Serializable Mixin *)

Module JSONMixin.

Definition __repr__ (is_array_denotation : value -> bool) (fuel : nat) (self : loc) : M string :=
  julia_pycall_compatible_serialize is_array_denotation fuel self default_remap.

Definition to_json (is_array_denotation : value -> bool) (fuel : nat) (self : loc) : M string :=
  julia_pycall_compatible_serialize is_array_denotation fuel self default_remap.

End JSONMixin.

(** ** Pure readings of the in-place loops

    What the loops over a heap dictionary compute, as functions on the
    dictionary's entries; the lemmas below relate them to the code. *)

Module Pure.

(** [attrs.get(k)] *)
Definition get (k : string) (d : dict) : value :=
  match Dict.lookup k d with Some v => v | None => VNone end.

Definition drop_step (d : dict) (ignore_attr : string) : dict :=
  if truthy (get ignore_attr d) then Dict.remove ignore_attr d else d.

Definition drop_ignored (d : dict) : dict := fold_left drop_step IGNORE_KEYS d.

Definition remap_step (d : dict) (snake_key : string) : dict :=
  if has_underscore snake_key then
    match Dict.lookup snake_key d with
    | Some v => Dict.store (camel_and_lower snake_key) v (Dict.remove snake_key d)
    | None => d
    end
  else d.

Definition remap_keys (d : dict) : dict := fold_left remap_step (Dict.keys d) d.

Definition not_none (d : dict) : dict :=
  List.filter (fun kv => negb (is_none (snd kv))) d.

End Pure.

(** how deep dictionaries nest along first entries: the calls
    [all_numpy_to_list] makes before it first looks [is_array] up *)
Fixpoint first_entry_depth (v : value) : nat :=
  match v with
  | VDict ((_, v') :: _) => S (first_entry_depth v')
  | _ => O
  end.

(** a computation leaves the first [n] objects of the heap as they are
    and deletes none *)
Definition frames {A} (n : nat) (m : M A) : Prop :=
  forall h, n <= length h ->
    take n (snd (m h)) = take n h /\ length h <= length (snd (m h)).

(** a text none of whose characters starts a key or a replacement of
    the dialect table *)
Fixpoint inert (p : string) : bool :=
  match p with
  | EmptyString => true
  | String a p' =>
      negb (Ascii.eqb a Render.apostrophe) && negb (Ascii.eqb a "F")
      && negb (Ascii.eqb a "T") && negb (Ascii.eqb a Render.dquote)
      && negb (Ascii.eqb a "f") && negb (Ascii.eqb a "t") && inert p'
  end.

(** a remapping function that writes to no object older than the
    dictionary it is given *)
Definition local_remap (remap_function : option (loc -> M unit)) : Prop :=
  forall n attrs, n <= attrs -> frames n (apply_remap remap_function attrs).

(** how many underscores a text holds *)
Fixpoint count_underscores (s : string) : nat :=
  match s with
  | EmptyString => 0
  | String c rest =>
      (if Ascii.eqb c Text.underscore then 1 else 0) + count_underscores rest
  end.

(** printable ASCII: space up to tilde *)
Definition printable_char (c : ascii) : bool :=
  let n := nat_of_ascii c in (32 <=? n)%nat && (n <=? 126)%nat.

Fixpoint printable (s : string) : bool :=
  match s with
  | EmptyString => true
  | String c rest => printable_char c && printable rest
  end.

(** nesting of lists and dictionaries in a value *)
Fixpoint value_depth (v : value) : nat :=
  match v with
  | VList items =>
      S ((fix go (xs : list value) : nat :=
            match xs with
            | [] => 0
            | x :: xs' => Nat.max (value_depth x) (go xs')
            end) items)
  | VDict entries =>
      S ((fix go (kvs : list (string * value)) : nat :=
            match kvs with
            | [] => 0
            | kv :: kvs' => Nat.max (value_depth (snd kv)) (go kvs')
            end) entries)
  | _ => 1
  end.

(** a value that holds no instance at any depth *)
Fixpoint instance_free (v : value) : bool :=
  match v with
  | VList items =>
      (fix go (xs : list value) : bool :=
         match xs with
         | [] => true
         | x :: xs' => instance_free x && go xs'
         end) items
  | VDict entries =>
      (fix go (kvs : list (string * value)) : bool :=
         match kvs with
         | [] => true
         | kv :: kvs' => instance_free (snd kv) && go kvs'
         end) entries
  | VObj _ => false
  | _ => true
  end.

(** the order [sort_keys] puts dictionary entries in *)
Definition key_le (a b : string * value) : Prop := String.leb (fst a) (fst b) = true.

(** * Properties *)

(** ** Key Transformer *)

Lemma has_underscore_cons c s :
  has_underscore (String c s) = Ascii.eqb c Text.underscore || has_underscore s.
Proof.
  unfold has_underscore. cbn [Text.contains Text.starts_with].
  rewrite (Ascii.eqb_sym c). unfold Text.underscore.
  destruct (Ascii.eqb "_" c); reflexivity.
Qed.

Lemma upper_not_underscore c :
  Ascii.eqb c Text.underscore = false -> Ascii.eqb (Text.upper c) Text.underscore = false.
Proof.
  destruct c as [[] [] [] [] [] [] [] []]; vm_compute; congruence.
Qed.

Lemma lower_not_underscore c :
  Ascii.eqb c Text.underscore = false -> Ascii.eqb (Text.lower c) Text.underscore = false.
Proof.
  destruct c as [[] [] [] [] [] [] [] []]; vm_compute; congruence.
Qed.

Lemma to_camel_case_loop_clean flag s :
  has_underscore (to_camel_case_loop flag s) = false.
Proof.
  revert flag. induction s as [|c s IH]; intros flag; [reflexivity|].
  cbn [to_camel_case_loop].
  destruct (Ascii.eqb c Text.underscore) eqn:E; [apply IH|].
  rewrite has_underscore_cons, IH, orb_false_r.
  destruct flag; [now apply upper_not_underscore | exact E].
Qed.

Lemma camel_and_lower_clean w : has_underscore (camel_and_lower w) = false.
Proof.
  unfold camel_and_lower, to_camel_case.
  pose proof (to_camel_case_loop_clean false w) as H.
  destruct (to_camel_case_loop false w) as [|c s]; [reflexivity|].
  cbn [lower_first_letter]. rewrite has_underscore_cons in *.
  apply orb_false_iff in H as [Hc Hs].
  now rewrite Hs, (lower_not_underscore _ Hc).
Qed.

Lemma to_camel_case_loop_split flag s1 s2 :
  to_camel_case_loop flag (s1 +:+ String Text.underscore s2)
  = to_camel_case_loop flag s1 +:+ to_camel_case_loop true s2.
Proof.
  revert flag. induction s1 as [|c s1 IH]; intros flag; [reflexivity|].
  simpl.
  destruct (Ascii.eqb c Text.underscore); [apply IH|].
  simpl. now rewrite IH.
Qed.

(** C8: [to_camel_case] drops every underscore and upper-cases the
    character emitted next.  An underscore splits the scan into what
    came before and a scan that starts with the flag set; a scan with
    the flag set upper-cases its first character that is not an
    underscore; the output holds no underscore; and the four sample
    calls give [snakeCased], [aBC], the empty string and [Leading]. *)
Theorem to_camel_case_consumes_underscores :
  (forall s1 s2,
      to_camel_case (s1 +:+ String Text.underscore s2)
      = to_camel_case s1 +:+ to_camel_case_loop true s2) /\
  (forall c s,
      to_camel_case_loop true (String c s)
      = if Ascii.eqb c Text.underscore then to_camel_case_loop true s
        else String (Text.upper c) (to_camel_case s)) /\
  (forall c s,
      to_camel_case (String c s)
      = if Ascii.eqb c Text.underscore then to_camel_case_loop true s
        else String c (to_camel_case s)) /\
  (forall s, has_underscore (to_camel_case s) = false) /\
  to_camel_case "snake_cased" = "snakeCased" /\
  to_camel_case "a_b_c" = "aBC" /\
  to_camel_case EmptyString = EmptyString /\
  to_camel_case "_leading" = "Leading".
Proof.
  repeat split; try reflexivity.
  - intros. apply to_camel_case_loop_split.
  - intros. apply to_camel_case_loop_clean.
Qed.

(** ** Running heap operations *)

Lemma bind_ok {A B} (m : M A) (k : A -> M B) h a h' :
  m h = (Ok a, h') -> bind m k h = k a h'.
Proof. unfold bind. now intros ->. Qed.

Lemma bind_raise {A B} (m : M A) (k : A -> M B) h e h' :
  m h = (Raise e, h') -> bind m k h = (Raise e, h').
Proof. unfold bind. now intros ->. Qed.

Lemma read_ok (h : heap) l d : h !! l = Some d -> Heap.read l h = (Ok d, h).
Proof. unfold Heap.read. now intros ->. Qed.

Lemma write_ok (h : heap) l d0 d :
  h !! l = Some d0 -> Heap.write l d h = (Ok tt, <[l := d]> h).
Proof. unfold Heap.write. now intros ->. Qed.

Lemma lookup_write (h : heap) l (d0 d : dict) :
  h !! l = Some d0 -> <[l := d]> h !! l = Some d.
Proof. intros H. apply list_lookup_insert_eq. eapply lookup_lt_Some, H. Qed.

Lemma get_ok (h : heap) l d k :
  h !! l = Some d -> Heap.get l k h = (Ok (Pure.get k d), h).
Proof. intros H. unfold Heap.get. now rewrite (bind_ok _ _ _ _ _ (read_ok _ _ _ H)). Qed.

Lemma keys_ok (h : heap) l d :
  h !! l = Some d -> Heap.keys l h = (Ok (Dict.keys d), h).
Proof. intros H. unfold Heap.keys. now rewrite (bind_ok _ _ _ _ _ (read_ok _ _ _ H)). Qed.

Lemma delitem_ok (h : heap) l d k v :
  h !! l = Some d -> Dict.lookup k d = Some v ->
  Heap.delitem l k h = (Ok tt, <[l := Dict.remove k d]> h).
Proof.
  intros H Hk. unfold Heap.delitem.
  rewrite (bind_ok _ _ _ _ _ (read_ok _ _ _ H)), Hk.
  now apply write_ok with d.
Qed.

Lemma pop_ok (h : heap) l d k v :
  h !! l = Some d -> Dict.lookup k d = Some v ->
  Heap.pop l k h = (Ok v, <[l := Dict.remove k d]> h).
Proof.
  intros H Hk. unfold Heap.pop.
  rewrite (bind_ok _ _ _ _ _ (read_ok _ _ _ H)), Hk.
  now rewrite (bind_ok _ _ _ _ _ (write_ok _ _ _ _ H)).
Qed.

Lemma setitem_ok (h : heap) l d k v :
  h !! l = Some d -> Heap.setitem l k v h = (Ok tt, <[l := Dict.store k v d]> h).
Proof.
  intros H. unfold Heap.setitem.
  rewrite (bind_ok _ _ _ _ _ (read_ok _ _ _ H)). now apply write_ok with d.
Qed.

Lemma lookup_alloc (h : heap) (d : dict) : (h ++ [d]) !! length h = Some d.
Proof. now apply list_lookup_middle. Qed.

Lemma write_alloc (h : heap) (d d' : dict) : <[length h := d']> (h ++ [d]) = h ++ [d'].
Proof.
  rewrite insert_app_r_alt by lia. now rewrite Nat.sub_diag.
Qed.

Lemma truthy_get_lookup k d :
  truthy (Pure.get k d) = true -> Dict.lookup k d = Some (Pure.get k d).
Proof. unfold Pure.get. destruct (Dict.lookup k d); [reflexivity | discriminate]. Qed.

(** the loop over the block-list, run on the dictionary at [l] *)
Lemma drop_loop_run l ks : forall (h : heap) d,
  h !! l = Some d ->
  for_each ks (fun ignore_attr =>
    let* v := Heap.get l ignore_attr in
    if truthy v then Heap.delitem l ignore_attr else ret tt) h
  = (Ok tt, <[l := fold_left Pure.drop_step ks d]> h).
Proof.
  induction ks as [|k ks IH]; intros h d H.
  - cbn [for_each fold_left]. unfold ret. now rewrite list_insert_id.
  - cbn [for_each fold_left].
    unfold Pure.drop_step at 2.
    destruct (truthy (Pure.get k d)) eqn:T.
    + erewrite bind_ok.
      2:{ erewrite bind_ok by (apply get_ok; exact H). rewrite T.
          eapply delitem_ok; [exact H | now apply truthy_get_lookup]. }
      rewrite (IH _ _ (lookup_write _ _ _ _ H)). now rewrite list_insert_insert_eq.
    + erewrite bind_ok.
      2:{ erewrite bind_ok by (apply get_ok; exact H). rewrite T. reflexivity. }
      now apply IH.
Qed.

Lemma drop_ignored_run l (h : heap) d :
  h !! l = Some d ->
  drop_ignored l h = (Ok tt, <[l := Pure.drop_ignored d]> h).
Proof. apply drop_loop_run. Qed.

(** ** Dictionary entries *)

Lemma lookup_in_keys k d : k ∈ Dict.keys d <-> exists v, Dict.lookup k d = Some v.
Proof.
  induction d as [|[k' v'] d IH]; cbn.
  - split; [intros H; inversion H | intros [? ?]; discriminate].
  - destruct (String.eqb_spec k k') as [->|Hne].
    + split; [eauto | intros _; left].
    + rewrite elem_of_cons, IH. split; [intros [?|?]; [contradiction|assumption] | auto].
Qed.

Lemma keys_remove_sub k k' d : k' ∈ Dict.keys (Dict.remove k d) -> k' ∈ Dict.keys d.
Proof.
  induction d as [|[k0 v0] d IH]; cbn; [auto|].
  destruct (String.eqb k k0); cbn.
  - intros. now right.
  - rewrite !elem_of_cons. intros [?|?]; auto.
Qed.

Lemma keys_remove_ne k k' d :
  k' <> k -> k' ∈ Dict.keys d -> k' ∈ Dict.keys (Dict.remove k d).
Proof.
  intros Hne. induction d as [|[k0 v0] d IH]; cbn; [auto|].
  destruct (String.eqb_spec k k0) as [->|Hk]; cbn; rewrite !elem_of_cons.
  - intros [?|?]; [contradiction | assumption].
  - intros [?|?]; auto.
Qed.

Lemma keys_remove_eq k d : Dict.wf d -> k ∉ Dict.keys (Dict.remove k d).
Proof.
  unfold Dict.wf. induction d as [|[k0 v0] d IH]; cbn; intros W.
  - intros H; inversion H.
  - apply NoDup_cons in W as [Hn W].
    destruct (String.eqb_spec k k0) as [->|Hk]; cbn; [assumption|].
    rewrite elem_of_cons. intros [?|?]; [contradiction | now apply IH].
Qed.

Lemma wf_remove k d : Dict.wf d -> Dict.wf (Dict.remove k d).
Proof.
  unfold Dict.wf. induction d as [|[k0 v0] d IH]; cbn; intros W; [assumption|].
  apply NoDup_cons in W as [Hn W].
  destruct (String.eqb k k0); cbn; [assumption|].
  apply NoDup_cons. split; [|now apply IH].
  intros Hin. apply Hn. eapply keys_remove_sub, Hin.
Qed.

Lemma keys_store k v k' d :
  k' ∈ Dict.keys (Dict.store k v d) <-> k' = k \/ k' ∈ Dict.keys d.
Proof.
  induction d as [|[k0 v0] d IH]; cbn.
  - rewrite elem_of_cons. intuition.
  - destruct (String.eqb_spec k k0) as [->|Hk]; cbn; rewrite !elem_of_cons.
    + tauto.
    + rewrite IH. tauto.
Qed.

Lemma wf_store k v d : Dict.wf d -> Dict.wf (Dict.store k v d).
Proof.
  unfold Dict.wf. induction d as [|[k0 v0] d IH]; cbn; intros W.
  - apply NoDup_singleton.
  - apply NoDup_cons in W as [Hn W].
    destruct (String.eqb_spec k k0) as [->|Hk]; cbn; apply NoDup_cons.
    + now split.
    + split; [|now apply IH].
      intros Hin. apply keys_store in Hin as [?|?]; [congruence | contradiction].
Qed.

Lemma lookup_store_eq k v d : Dict.lookup k (Dict.store k v d) = Some v.
Proof.
  induction d as [|[k0 v0] d IH]; cbn.
  - now rewrite String.eqb_refl.
  - destruct (String.eqb k k0) eqn:E; cbn; [now rewrite String.eqb_refl | now rewrite E].
Qed.

Lemma lookup_store_ne k v k' d :
  k' <> k -> Dict.lookup k' (Dict.store k v d) = Dict.lookup k' d.
Proof.
  intros Hne. induction d as [|[k0 v0] d IH]; cbn.
  - now apply String.eqb_neq in Hne as ->.
  - destruct (String.eqb_spec k k0) as [->|Hk]; cbn.
    + now apply String.eqb_neq in Hne as ->.
    + now rewrite IH.
Qed.

Lemma lookup_remove_ne k k' d :
  k' <> k -> Dict.lookup k' (Dict.remove k d) = Dict.lookup k' d.
Proof.
  intros Hne. induction d as [|[k0 v0] d IH]; cbn; [reflexivity|].
  destruct (String.eqb_spec k k0) as [->|Hk]; cbn.
  - now apply String.eqb_neq in Hne as ->.
  - now rewrite IH.
Qed.

Lemma keys_not_none_sub k d : k ∈ Dict.keys (Pure.not_none d) -> k ∈ Dict.keys d.
Proof.
  unfold Pure.not_none. induction d as [|[k0 v0] d IH]; [auto|].
  cbn. destruct (is_none v0); cbn; rewrite ?elem_of_cons; intuition.
Qed.

Lemma wf_not_none d : Dict.wf d -> Dict.wf (Pure.not_none d).
Proof.
  unfold Dict.wf. induction d as [|[k0 v0] d IH]; [auto|].
  cbn. intros [Hn W]%NoDup_cons.
  destruct (is_none v0); cbn; [now apply IH|].
  apply NoDup_cons. split; [|now apply IH].
  intros Hin. now apply Hn, keys_not_none_sub.
Qed.

Lemma wf_drop_step d k : Dict.wf d -> Dict.wf (Pure.drop_step d k).
Proof.
  intros W. unfold Pure.drop_step. destruct (truthy _); [now apply wf_remove | assumption].
Qed.

Lemma wf_drop_ignored d : Dict.wf d -> Dict.wf (Pure.drop_ignored d).
Proof.
  unfold Pure.drop_ignored. generalize IGNORE_KEYS as ks. intros ks. revert d.
  induction ks as [|k ks IH]; intros d W; cbn; [assumption|].
  apply IH, wf_drop_step, W.
Qed.

(** ** Running the Key Remapper and the Attribute Filter *)

(** the renaming loop, run over keys [ks] that are pairwise distinct
    and, where they hold an underscore, still in the dictionary *)
Lemma remap_loop_run l ks : forall (h : heap) d,
  h !! l = Some d ->
  NoDup ks ->
  (forall k, k ∈ ks -> has_underscore k = true -> k ∈ Dict.keys d) ->
  for_each ks (fun snake_key =>
    if negb (has_underscore snake_key) then ret tt
    else
      let camel_key := camel_and_lower snake_key in
      let* v := Heap.pop l snake_key in
      Heap.setitem l camel_key v) h
  = (Ok tt, <[l := fold_left Pure.remap_step ks d]> h).
Proof.
  induction ks as [|k ks IH]; intros h d H ND Hin.
  - cbn [for_each fold_left]. unfold ret. now rewrite list_insert_id.
  - apply NoDup_cons in ND as [Hk ND].
    cbn [for_each fold_left]. unfold Pure.remap_step at 2.
    destruct (has_underscore k) eqn:U; cbn [negb].
    + destruct (proj1 (lookup_in_keys k d)) as [v Hv].
      { apply Hin; [left | exact U]. }
      rewrite Hv.
      erewrite bind_ok.
      2:{ erewrite bind_ok by (eapply pop_ok; eassumption).
          eapply setitem_ok, lookup_write, H. }
      rewrite list_insert_insert_eq.
      erewrite IH; [now rewrite list_insert_insert_eq | eapply lookup_write, H | exact ND |].
      intros k' Hk' U'. apply keys_store. right.
      apply keys_remove_ne; [intros -> ; contradiction|].
      apply Hin; [now right | exact U'].
    + erewrite bind_ok by reflexivity.
      apply IH; [exact H | exact ND |].
      intros k' Hk' U'. apply Hin; [now right | exact U'].
Qed.

Lemma lower_camel_case_keys_run l (h : heap) d :
  h !! l = Some d -> Dict.wf d ->
  lower_camel_case_keys l h = (Ok tt, <[l := Pure.remap_keys d]> h).
Proof.
  intros H W. unfold lower_camel_case_keys.
  rewrite (bind_ok _ _ _ _ _ (keys_ok _ _ _ H)).
  apply remap_loop_run; auto.
Qed.

Lemma default_serialize_plain o (h : heap) d :
  h !! o = Some d ->
  default_serialize o None h
  = (Ok (length h), h ++ [Pure.drop_ignored (Pure.not_none d)]).
Proof.
  intros H. unfold default_serialize, vars.
  erewrite bind_ok.
  2:{ erewrite bind_ok by (apply read_ok, H). reflexivity. }
  rewrite (bind_ok _ _ _ _ _ (read_ok _ _ _ H)).
  erewrite bind_ok by reflexivity.
  erewrite bind_ok by (apply drop_ignored_run, lookup_alloc).
  rewrite write_alloc. reflexivity.
Qed.

Lemma default_serialize_default o (h : heap) d :
  h !! o = Some d -> Dict.wf d ->
  default_serialize o default_remap h
  = (Ok (length h), h ++ [Pure.remap_keys (Pure.drop_ignored (Pure.not_none d))]).
Proof.
  intros H W. unfold default_serialize, vars.
  erewrite bind_ok.
  2:{ erewrite bind_ok by (apply read_ok, H). reflexivity. }
  rewrite (bind_ok _ _ _ _ _ (read_ok _ _ _ H)).
  erewrite bind_ok by reflexivity.
  erewrite bind_ok by (apply drop_ignored_run, lookup_alloc).
  rewrite write_alloc.
  erewrite bind_ok.
  2:{ apply lower_camel_case_keys_run; [apply lookup_alloc|].
      now apply wf_drop_ignored, wf_not_none. }
  rewrite write_alloc. reflexivity.
Qed.

(** ** Attribute Filter *)

(** C5: an object with attributes [a: None], [b: 5],
    [mapbox_key: "secret"], [c: 0] gives exactly [b: 5], [c: 0]: the
    result is a new dictionary holding these two entries and no other. *)
Theorem default_serialize_sample (h : heap) (o : loc) :
  h !! o = Some [ ("a", VNone); ("b", VInt 5);
                  ("mapbox_key", VStr "secret"); ("c", VInt 0) ] ->
  default_serialize o default_remap h
  = (Ok (length h), h ++ [[ ("b", VInt 5); ("c", VInt 0) ]]).
Proof.
  intros H. rewrite (default_serialize_default _ _ _ H).
  - reflexivity.
  - unfold Dict.wf. apply (bool_decide_unpack _). now vm_compute.
Qed.

Lemma default_serialize_sample_witness :
  default_serialize 0 default_remap
    [[ ("a", VNone); ("b", VInt 5); ("mapbox_key", VStr "secret"); ("c", VInt 0) ]]
  = (Ok 1, [ [ ("a", VNone); ("b", VInt 5); ("mapbox_key", VStr "secret"); ("c", VInt 0) ];
             [ ("b", VInt 5); ("c", VInt 0) ] ]).
Proof.
  apply (default_serialize_sample
           [[ ("a", VNone); ("b", VInt 5); ("mapbox_key", VStr "secret"); ("c", VInt 0) ]] 0).
  reflexivity.
Defined.

Lemma lookup_absent k d : k ∉ Dict.keys d -> Dict.lookup k d = None.
Proof.
  intros H. destruct (Dict.lookup k d) eqn:E; [|reflexivity].
  exfalso. apply H, lookup_in_keys. eauto.
Qed.

Lemma lookup_entry k v (d : dict) : Dict.lookup k d = Some v -> (k, v) ∈ d.
Proof.
  induction d as [|[k0 v0] d IH]; cbn; [discriminate|].
  destruct (String.eqb_spec k k0) as [->|].
  - intros [= ->]. left.
  - intros H. right. now apply IH.
Qed.

Lemma entry_remove k0 k v (d : dict) : (k, v) ∈ Dict.remove k0 d -> (k, v) ∈ d.
Proof.
  induction d as [|[k1 v1] d IH]; cbn; [auto|].
  destruct (String.eqb k0 k1).
  - intros. now right.
  - rewrite !elem_of_cons. intros [?|?]; auto.
Qed.

Lemma entry_store k0 v0 k v (d : dict) :
  (k, v) ∈ Dict.store k0 v0 d -> (k, v) = (k0, v0) \/ (k, v) ∈ d.
Proof.
  induction d as [|[k1 v1] d IH]; cbn.
  - rewrite elem_of_cons, elem_of_nil. tauto.
  - destruct (String.eqb k0 k1); rewrite !elem_of_cons; [tauto|].
    intros [?|H]; [auto|]. destruct (IH H); auto.
Qed.

Lemma entry_not_none k v (d : dict) :
  (k, v) ∈ Pure.not_none d -> (k, v) ∈ d /\ is_none v = false.
Proof.
  unfold Pure.not_none. rewrite list_elem_of_In, filter_In, <- list_elem_of_In.
  cbn. intros [H Hv]. split; [exact H|]. now destruct (is_none v).
Qed.

Lemma entry_drop_fold k v ks : forall d : dict,
  (k, v) ∈ fold_left Pure.drop_step ks d -> (k, v) ∈ d.
Proof.
  induction ks as [|k0 ks IH]; intros d; cbn; [auto|].
  intros H. apply IH in H. unfold Pure.drop_step in H.
  destruct (truthy _); [eapply entry_remove, H | exact H].
Qed.

Lemma lookup_not_none_wf k d :
  Dict.wf d ->
  Dict.lookup k (Pure.not_none d)
  = match Dict.lookup k d with
    | Some v => if is_none v then None else Some v
    | None => None
    end.
Proof.
  unfold Dict.wf. induction d as [|[k0 v0] d IH]; [reflexivity|].
  cbn. intros [Hn W]%NoDup_cons.
  destruct (String.eqb_spec k k0) as [->|Hne].
  - destruct (is_none v0) eqn:E; cbn.
    + apply lookup_absent. intros Hin. now apply Hn, keys_not_none_sub.
    + now rewrite String.eqb_refl.
  - destruct (is_none v0); cbn; [now apply IH|].
    apply String.eqb_neq in Hne as ->. now apply IH.
Qed.

Lemma lookup_drop_fold k ks : forall d,
  Dict.wf d ->
  Dict.lookup k (fold_left Pure.drop_step ks d)
  = if bool_decide (k ∈ ks) && truthy (Pure.get k d) then None else Dict.lookup k d.
Proof.
  induction ks as [|k0 ks IH]; intros d W; cbn [fold_left].
  - now rewrite bool_decide_eq_false_2 by apply not_elem_of_nil.
  - rewrite IH by now apply wf_drop_step.
    unfold Pure.drop_step. destruct (decide (k = k0)) as [->|Hne].
    + rewrite (bool_decide_eq_true_2 (k0 ∈ k0 :: ks)) by left.
      destruct (truthy (Pure.get k0 d)) eqn:T; cbn [andb].
      * assert (Dict.lookup k0 (Dict.remove k0 d) = None) as L
          by (apply lookup_absent; now apply keys_remove_eq).
        unfold Pure.get. rewrite L. cbn. now rewrite andb_false_r.
      * rewrite T. now rewrite andb_false_r.
    + assert (bool_decide (k ∈ k0 :: ks) = bool_decide (k ∈ ks)) as ->.
      { apply bool_decide_ext. rewrite elem_of_cons. tauto. }
      destruct (truthy (Pure.get k0 d)); [|reflexivity].
      unfold Pure.get. now rewrite lookup_remove_ne.
Qed.

Lemma remove_sublist k (d : dict) : Dict.remove k d `sublist_of` d.
Proof.
  induction d as [|[k0 v0] d IH]; cbn; [constructor|].
  destruct (String.eqb k k0); [now apply sublist_cons | now apply sublist_skip].
Qed.

Lemma not_none_sublist (d : dict) : Pure.not_none d `sublist_of` d.
Proof.
  unfold Pure.not_none. induction d as [|[k0 v0] d IH]; cbn; [constructor|].
  destruct (is_none v0); cbn; [now apply sublist_cons | now apply sublist_skip].
Qed.

Lemma drop_fold_sublist ks : forall d : dict,
  fold_left Pure.drop_step ks d `sublist_of` d.
Proof.
  induction ks as [|k ks IH]; intros d; cbn; [reflexivity|].
  etransitivity; [apply IH|].
  unfold Pure.drop_step. destruct (truthy _); [apply remove_sublist | reflexivity].
Qed.

(** C4, as the claim states it, fails: an attribute whose name is on
    the block-list is not excluded whatever its value.  For an object
    whose [mapbox_key] is the empty string the returned dictionary
    still binds [mapbox_key]. *)
Lemma blocked_attribute_not_always_excluded :
  ~ (forall (h : heap) (o : loc) (d : dict) k v,
        h !! o = Some d ->
        k ∈ IGNORE_KEYS ->
        Dict.lookup k d = Some v ->
        exists attrs h' d',
          default_serialize o None h = (Ok attrs, h') /\
          h' !! attrs = Some d' /\
          Dict.lookup k d' = None).
Proof.
  intros H.
  destruct (H [[("mapbox_key", VStr EmptyString)]] 0
              [("mapbox_key", VStr EmptyString)] "mapbox_key" (VStr EmptyString))
    as (attrs & h' & d' & Hrun & Hl & Hk).
  - reflexivity.
  - apply (bool_decide_unpack _). now vm_compute.
  - reflexivity.
  - injection Hrun as <- <-. injection Hl as <-. discriminate Hk.
Qed.

(** C4 (amended): for every object and every attribute whose name is
    on the block-list, the attribute filter leaves the attribute out
    when its value is truthy (and when it is [None], as for any
    attribute); when its value is falsy but not [None], such as [0],
    the empty string or the empty list, the attribute is kept with its
    value. *)
Theorem blocked_attribute_excluded_when_truthy (h : heap) (o : loc) (d : dict) k :
  h !! o = Some d -> Dict.wf d ->
  k ∈ IGNORE_KEYS ->
  exists d',
    default_serialize o None h = (Ok (length h), h ++ [d']) /\
    Dict.lookup k d'
    = match Dict.lookup k d with
      | Some v => if truthy v || is_none v then None else Some v
      | None => None
      end.
Proof.
  intros H W Hk. exists (Pure.drop_ignored (Pure.not_none d)).
  split; [now apply default_serialize_plain|].
  unfold Pure.drop_ignored.
  rewrite lookup_drop_fold by now apply wf_not_none.
  rewrite (bool_decide_eq_true_2 _ Hk). cbn [andb].
  unfold Pure.get. rewrite lookup_not_none_wf by assumption.
  destruct (Dict.lookup k d) as [v|]; [|reflexivity].
  destruct (is_none v) eqn:E.
  - rewrite orb_true_r. reflexivity.
  - rewrite orb_false_r. reflexivity.
Qed.

Lemma blocked_attribute_excluded_when_truthy_witness :
  (exists d',
      default_serialize 0 None
        [[("mapbox_key", VStr "secret"); ("_kwargs", VDict [])]]
      = (Ok 1, [[("mapbox_key", VStr "secret"); ("_kwargs", VDict [])]] ++ [d']) /\
      Dict.lookup "mapbox_key" d' = None) /\
  (exists d',
      default_serialize 0 None
        [[("mapbox_key", VStr "secret"); ("_kwargs", VDict [])]]
      = (Ok 1, [[("mapbox_key", VStr "secret"); ("_kwargs", VDict [])]] ++ [d']) /\
      Dict.lookup "_kwargs" d' = Some (VDict [])).
Proof.
  split.
  - apply (blocked_attribute_excluded_when_truthy
             [[("mapbox_key", VStr "secret"); ("_kwargs", VDict [])]] 0
             [("mapbox_key", VStr "secret"); ("_kwargs", VDict [])] "mapbox_key").
    + reflexivity.
    + apply (bool_decide_unpack _). now vm_compute.
    + apply (bool_decide_unpack _). now vm_compute.
  - apply (blocked_attribute_excluded_when_truthy
             [[("mapbox_key", VStr "secret"); ("_kwargs", VDict [])]] 0
             [("mapbox_key", VStr "secret"); ("_kwargs", VDict [])] "_kwargs").
    + reflexivity.
    + apply (bool_decide_unpack _). now vm_compute.
    + apply (bool_decide_unpack _). now vm_compute.
Defined.

(** ** Array Normalizer *)

Lemma is_array_unbound den v (h : heap) :
  is_array den v h = (Raise (NameError "is_array"), h).
Proof. reflexivity. Qed.

Lemma all_numpy_to_list_raises den : forall fuel v (h : heap),
  first_entry_depth v < fuel ->
  all_numpy_to_list den fuel v h = (Raise (NameError "is_array"), h).
Proof.
  induction fuel as [|fuel IH]; intros v h Hd; [lia|].
  cbn [all_numpy_to_list].
  destruct v as [| b | n | s | items | [|[k v'] entries] | o];
    try (erewrite bind_ok by reflexivity; now erewrite bind_raise by apply is_array_unbound).
  cbn in Hd. erewrite bind_raise; [reflexivity|].
    erewrite bind_raise; [reflexivity|].
    cbn [map_M]. erewrite bind_raise; [reflexivity|].
    cbn [snd]. erewrite bind_raise; [reflexivity|].
    apply IH. lia.
Qed.

(** C2 (the code departs from it): on a number, a string, a boolean,
    [None] or a list, [all_numpy_to_list] does not return its argument;
    it raises [NameError] when it looks [is_array] up. *)
Theorem all_numpy_to_list_never_returns den fuel (h : heap) :
  all_numpy_to_list den (S fuel) (VInt 5) h = (Raise (NameError "is_array"), h) /\
  all_numpy_to_list den (S fuel) (VStr "text") h = (Raise (NameError "is_array"), h) /\
  all_numpy_to_list den (S fuel) (VBool true) h = (Raise (NameError "is_array"), h) /\
  all_numpy_to_list den (S fuel) VNone h = (Raise (NameError "is_array"), h) /\
  all_numpy_to_list den (S fuel) (VList [VInt 1; VInt 2; VInt 3]) h
    = (Raise (NameError "is_array"), h).
Proof.
  repeat split; apply all_numpy_to_list_raises; cbn; lia.
Qed.

Lemma all_numpy_to_list_always_raises den : forall fuel v (h : heap),
  exists e, all_numpy_to_list den fuel v h = (Raise e, h).
Proof.
  induction fuel as [|fuel IH]; intros v h; [now exists RecursionError|].
  destruct v as [| b | n | s | items | [|[k v'] entries] | o];
    try (exists (NameError "is_array"); apply all_numpy_to_list_raises; cbn; lia).
  destruct (IH v' h) as [e He]. exists e.
  cbn [all_numpy_to_list].
  erewrite bind_raise; [reflexivity|].
  erewrite bind_raise; [reflexivity|].
  cbn [map_M]. erewrite bind_raise; [reflexivity|].
  cbn [snd]. erewrite bind_raise; [reflexivity | exact He].
Qed.

(** ** Dialect Serializer *)

Lemma not_none_nonempty (d : dict) k v :
  (k, v) ∈ d -> is_none v = false -> Pure.not_none d <> [].
Proof.
  intros Hin Hv E.
  assert (In (k, v) (Pure.not_none d)) as Hf.
  { apply filter_In. split; [now apply list_elem_of_In | cbn; now rewrite Hv]. }
  rewrite E in Hf. destruct Hf.
Qed.

(** the dialect serializer up to its first call of the normalizer *)
Lemma julia_first_attribute den fuel (h : heap) o d remap k v rest e :
  h !! o = Some d ->
  Pure.not_none d = (k, v) :: rest ->
  all_numpy_to_list den fuel v h = (Raise e, h) ->
  julia_pycall_compatible_serialize den (S fuel) o remap h = (Raise e, h).
Proof.
  intros H E Hr. cbn [julia_pycall_compatible_serialize]. unfold vars.
  erewrite bind_ok.
  2:{ erewrite bind_ok by (apply read_ok, H). reflexivity. }
  rewrite (bind_ok _ _ _ _ _ (read_ok _ _ _ H)).
  fold (Pure.not_none d). rewrite E.
  erewrite bind_raise; [reflexivity|].
  cbn [map_M]. erewrite bind_raise; [reflexivity|].
  cbn [snd]. erewrite bind_raise; [reflexivity | exact Hr].
Qed.

Lemma julia_empty_mapping den fuel (h : heap) o d :
  h !! o = Some d ->
  Pure.not_none d = [] ->
  julia_pycall_compatible_serialize den (S (S fuel)) o default_remap h
  = (Ok "{}", h ++ [[]]).
Proof.
  intros H E. cbn [julia_pycall_compatible_serialize]. unfold vars.
  erewrite bind_ok.
  2:{ erewrite bind_ok by (apply read_ok, H). reflexivity. }
  rewrite (bind_ok _ _ _ _ _ (read_ok _ _ _ H)).
  fold (Pure.not_none d). rewrite E.
  erewrite bind_ok by reflexivity.
  erewrite bind_ok by reflexivity.
  erewrite bind_ok by (apply drop_ignored_run, lookup_alloc).
  rewrite write_alloc.
  erewrite bind_ok.
  2:{ apply lower_camel_case_keys_run; [apply lookup_alloc | apply NoDup_nil_2]. }
  rewrite write_alloc.
  erewrite bind_ok by (apply read_ok, lookup_alloc).
  reflexivity.
Qed.

(** C1: [is_array] is bound neither in the module nor among the
    built-ins, so [all_numpy_to_list] raises [NameError] on every value
    (given the nesting the interpreter allows); hence
    [julia_pycall_compatible_serialize] raises for every object with an
    attribute that is not [None], and returns the text of the empty
    mapping when no attribute is left after the [None] filter. *)
Theorem is_array_is_unbound den :
  ("is_array" ∉ module_globals ++ builtins) /\
  (forall fuel v (h : heap),
      first_entry_depth v < fuel ->
      all_numpy_to_list den fuel v h = (Raise (NameError "is_array"), h)) /\
  (forall fuel (h : heap) o (d : dict) remap k v,
      h !! o = Some d -> (k, v) ∈ d -> is_none v = false ->
      exists e, julia_pycall_compatible_serialize den fuel o remap h = (Raise e, h)) /\
  (forall fuel (h : heap) o (d : dict) remap k v rest,
      h !! o = Some d -> Pure.not_none d = (k, v) :: rest ->
      first_entry_depth v < fuel ->
      julia_pycall_compatible_serialize den (S fuel) o remap h
      = (Raise (NameError "is_array"), h)) /\
  (forall fuel (h : heap) o (d : dict),
      h !! o = Some d -> Pure.not_none d = [] ->
      julia_pycall_compatible_serialize den (S (S fuel)) o default_remap h
      = (Ok "{}", h ++ [[]])).
Proof.
  split; [|split; [|split; [|split]]].
  - apply (bool_decide_unpack _). now vm_compute.
  - apply all_numpy_to_list_raises.
  - intros fuel h o d remap k v H Hin Hv.
    destruct fuel as [|fuel]; [now exists RecursionError|].
    destruct (Pure.not_none d) as [|[k0 v0] rest] eqn:E.
    + now destruct (not_none_nonempty d k v Hin Hv).
    + destruct (all_numpy_to_list_always_raises den fuel v0 h) as [e He].
      exists e. eapply julia_first_attribute; eassumption.
  - intros fuel h o d remap k v rest H E Hd.
    eapply julia_first_attribute; [exact H | exact E |].
    now apply all_numpy_to_list_raises.
  - intros. now apply julia_empty_mapping with d.
Qed.

Lemma is_array_is_unbound_witness :
  all_numpy_to_list (fun _ => true) 2 (VDict [("x", VList [VInt 1])]) []
    = (Raise (NameError "is_array"), []) /\
  julia_pycall_compatible_serialize (fun _ => true) 2 0 default_remap [[("b", VInt 5)]]
    = (Raise (NameError "is_array"), [[("b", VInt 5)]]) /\
  julia_pycall_compatible_serialize (fun _ => true) 2 0 default_remap [[("a", VNone)]]
    = (Ok "{}", [[("a", VNone)]; []]).
Proof.
  destruct (is_array_is_unbound (fun _ => true)) as (_ & Hn & _ & Hj & He).
  split; [|split].
  - apply Hn. cbn. lia.
  - apply (Hj 1 [[("b", VInt 5)]] 0 [("b", VInt 5)] default_remap "b" (VInt 5) []).
    + reflexivity.
    + reflexivity.
    + cbn. lia.
  - apply (He 0 [[("a", VNone)]] 0 [("a", VNone)]); reflexivity.
Defined.

(** C3 (the code departs from it): for an object whose only attribute
    is [b = 5] (no string field at all) the dialect serializer returns
    no string; it raises [NameError]. *)
Theorem julia_serialize_returns_no_text den fuel :
  julia_pycall_compatible_serialize den (S (S fuel)) 0 default_remap [[("b", VInt 5)]]
  = (Raise (NameError "is_array"), [[("b", VInt 5)]]).
Proof.
  eapply julia_first_attribute; [reflexivity | reflexivity |].
  apply all_numpy_to_list_raises. cbn. lia.
Qed.

(** ** Serializable Mixin *)

(** C10: [__repr__] and [to_json] return the same string, the one
    [julia_pycall_compatible_serialize] returns for the object (called
    with the default remapping), and leave the same heap. *)
Theorem repr_and_to_json_agree den fuel (self : loc) (h : heap) :
  JSONMixin.__repr__ den fuel self h = JSONMixin.to_json den fuel self h /\
  JSONMixin.to_json den fuel self h
  = julia_pycall_compatible_serialize den fuel self default_remap h.
Proof. split; reflexivity. Qed.

(** ** Token substitution *)

Lemma append_assoc (a b c : string) : (a +:+ b) +:+ c = a +:+ (b +:+ c).
Proof. induction a as [|x a IH]; simpl; [reflexivity | now rewrite IH]. Qed.

Lemma starts_with_split p s :
  Text.starts_with p s = true -> s = p +:+ Text.drop (String.length p) s.
Proof.
  revert s. induction p as [|a p IH]; intros s; [reflexivity|].
  destruct s as [|b s]; simpl; [discriminate|].
  destruct (Ascii.eqb_spec a b) as [->|]; [|discriminate].
  intros H. now rewrite <- (IH _ H).
Qed.

Lemma starts_with_append p s : Text.starts_with p (p +:+ s) = true.
Proof. induction p as [|a p IH]; simpl; [reflexivity | now rewrite Ascii.eqb_refl]. Qed.

Lemma drop_length n s : String.length (Text.drop n s) <= String.length s - n.
Proof.
  revert s. induction n as [|n IH]; intros s; cbn; [lia|].
  destruct s as [|c s]; cbn; [lia | apply IH].
Qed.

Lemma starts_with_cons a p b s :
  Text.starts_with (String a p) (String b s)
  = if Ascii.eqb a b then Text.starts_with p s else false.
Proof. reflexivity. Qed.

Lemma first_match_Some patterns text key replacement :
  first_match patterns text = Some (key, replacement) ->
  (key, replacement) ∈ patterns /\ Text.starts_with key text = true.
Proof.
  induction patterns as [|[k v] rest IH]; cbn; [discriminate|].
  destruct (Text.starts_with k text) eqn:E.
  - intros [= -> ->]. split; [left | exact E].
  - intros H. destruct (IH H). split; [now right | assumption].
Qed.

Lemma dialect_cases key replacement :
  (key, replacement) ∈ dialect_patterns ->
  (key, replacement) = (Render.char Render.apostrophe, Render.char Render.dquote)
  \/ (key, replacement) = ("False", "false")
  \/ (key, replacement) = ("True", "true").
Proof.
  unfold dialect_patterns. rewrite !elem_of_cons, elem_of_nil. tauto.
Qed.

Lemma first_match_None c t :
  first_match dialect_patterns (String c t) = None ->
  Ascii.eqb Render.apostrophe c = false
  /\ Text.starts_with "False" (String c t) = false
  /\ Text.starts_with "True" (String c t) = false.
Proof.
  unfold dialect_patterns. cbn [first_match].
  change (Text.starts_with (Render.char Render.apostrophe) (String c t))
    with (if Ascii.eqb Render.apostrophe c then true else false).
  destruct (Ascii.eqb Render.apostrophe c); [discriminate|].
  destruct (Text.starts_with "False" (String c t)); [discriminate|].
  destruct (Text.starts_with "True" (String c t)); [discriminate|].
  auto.
Qed.

Lemma first_match_None_intro c t :
  Ascii.eqb Render.apostrophe c = false ->
  Text.starts_with "False" (String c t) = false ->
  Text.starts_with "True" (String c t) = false ->
  first_match dialect_patterns (String c t) = None.
Proof.
  intros H1 H2 H3. unfold dialect_patterns. cbn [first_match].
  change (Text.starts_with (Render.char Render.apostrophe) (String c t))
    with (if Ascii.eqb Render.apostrophe c then true else false).
  now rewrite H1, H2, H3.
Qed.

(** one step of the scan at a key *)
Lemma substitute_match key replacement t :
  (key, replacement) ∈ dialect_patterns ->
  substitute dialect_patterns 0 (key +:+ t)
  = replacement +:+ substitute dialect_patterns 0 t.
Proof.
  intros H. destruct (dialect_cases _ _ H) as [E|[E|E]]; injection E as -> ->.
  - reflexivity.
  - reflexivity.
  - reflexivity.
Qed.

(** one step of the scan where no key starts *)
Lemma substitute_other c t :
  first_match dialect_patterns (String c t) = None ->
  substitute dialect_patterns 0 (String c t)
  = String c (substitute dialect_patterns 0 t).
Proof. intros H. cbn [substitute]. now rewrite H. Qed.

(** induction along the scan: the text is empty, or starts with a
    character at which no key starts, or starts with a key *)
Lemma dialect_scan_ind (P : string -> Prop) :
  P EmptyString ->
  (forall c t, first_match dialect_patterns (String c t) = None -> P t -> P (String c t)) ->
  (forall key replacement t,
      (key, replacement) ∈ dialect_patterns -> P t -> P (key +:+ t)) ->
  forall t, P t.
Proof.
  intros H0 Hc Hk.
  assert (forall n t, String.length t <= n -> P t) as Hn.
  { induction n as [|n IH]; intros t Hl.
    - destruct t; [exact H0 | cbn in Hl; lia].
    - destruct t as [|c t]; [exact H0|].
      destruct (first_match dialect_patterns (String c t)) as [[k v]|] eqn:E.
      + apply first_match_Some in E as [Hin Hs].
        rewrite (starts_with_split _ _ Hs). apply (Hk k v); [exact Hin|].
        apply IH. pose proof (drop_length (String.length k) (String c t)) as Hd.
        assert (0 < String.length k).
        { destruct (dialect_cases _ _ Hin) as [X|[X|X]]; injection X as -> ->; cbn; lia. }
        cbn in Hl, Hd. lia.
      + apply Hc; [exact E|]. apply IH. cbn in Hl. lia. }
  intros t. now apply (Hn (String.length t)).
Qed.

Lemma inert_head a p :
  inert (String a p) = true ->
  Ascii.eqb a Render.apostrophe = false /\ Ascii.eqb a "F" = false
  /\ Ascii.eqb a "T" = false /\ Ascii.eqb a Render.dquote = false
  /\ Ascii.eqb a "f" = false /\ Ascii.eqb a "t" = false /\ inert p = true.
Proof.
  cbn [inert]. rewrite !andb_true_iff, !negb_true_iff. tauto.
Qed.

(** a key that follows [t] does not complete an inert text begun in [t] *)
Lemma starts_with_before_key p : forall t key replacement post,
  inert p = true ->
  (key, replacement) ∈ dialect_patterns ->
  Text.starts_with p (t +:+ key +:+ post) = true ->
  Text.starts_with p t = true.
Proof.
  induction p as [|a p IH]; intros t key v post Hi Hin; [reflexivity|].
  apply inert_head in Hi as (H1 & H2 & H3 & _ & _ & _ & Hp).
  destruct t as [|b t].
  - destruct (dialect_cases _ _ Hin) as [E|[E|E]]; injection E as -> ->;
      unfold Render.char; simpl String.append; rewrite starts_with_cons;
      [rewrite H1 | rewrite H2 | rewrite H3]; discriminate.
  - simpl String.append. rewrite !starts_with_cons.
    destruct (Ascii.eqb a b); [|discriminate]. now apply IH with v.
Qed.

Lemma first_match_before_key c t key replacement post :
  (key, replacement) ∈ dialect_patterns ->
  first_match dialect_patterns (String c t) = None ->
  first_match dialect_patterns (String c (t +:+ key +:+ post)) = None.
Proof.
  intros Hin (H1 & H2 & H3)%first_match_None.
  apply first_match_None_intro; [exact H1 | |].
  - rewrite starts_with_cons in *. destruct (Ascii.eqb "F" c); [|reflexivity].
    destruct (Text.starts_with "alse" (t +:+ key +:+ post)) eqn:E; [|reflexivity].
    rewrite <- H2. symmetry. now apply starts_with_before_key with key replacement post.
  - rewrite starts_with_cons in *. destruct (Ascii.eqb "T" c); [|reflexivity].
    destruct (Text.starts_with "rue" (t +:+ key +:+ post)) eqn:E; [|reflexivity].
    rewrite <- H3. symmetry. now apply starts_with_before_key with key replacement post.
Qed.

(** every occurrence of a key is replaced: the scan of a text with a
    key in it is the scan of what precedes, the replacement, and the
    scan of what follows *)
Lemma substitute_occurrence pre : forall key replacement post,
  (key, replacement) ∈ dialect_patterns ->
  substitute dialect_patterns 0 (pre +:+ key +:+ post)
  = substitute dialect_patterns 0 pre +:+ replacement
    +:+ substitute dialect_patterns 0 post.
Proof.
  induction pre as [| c t Hnone IH | k v t Hk IH] using dialect_scan_ind;
    intros key replacement post Hin.
  - exact (substitute_match key replacement post Hin).
  - rewrite (substitute_other _ _ Hnone).
    change (String c t +:+ key +:+ post) with (String c (t +:+ key +:+ post)).
    rewrite (substitute_other _ _ (first_match_before_key _ _ _ _ _ Hin Hnone)).
    now rewrite (IH _ _ _ Hin).
  - rewrite append_assoc, !(substitute_match _ _ _ Hk), (IH _ _ _ Hin).
    now rewrite append_assoc.
Qed.

(** an inert text at the head of the output was at the head of the input *)
Lemma starts_with_output p : forall t,
  inert p = true ->
  Text.starts_with p (substitute dialect_patterns 0 t) = true ->
  Text.starts_with p t = true.
Proof.
  induction p as [|a p IH]; intros t Hi; [reflexivity|].
  pose proof (inert_head _ _ Hi) as (_ & _ & _ & H4 & H5 & H6 & Hp).
  destruct t as [|c t]; [cbv; discriminate|].
  destruct (first_match dialect_patterns (String c t)) as [[k v]|] eqn:E.
  - apply first_match_Some in E as [Hin Hs].
    rewrite (starts_with_split _ _ Hs), (substitute_match _ _ _ Hin).
    destruct (dialect_cases _ _ Hin) as [X|[X|X]]; injection X as -> ->;
      unfold Render.char; simpl String.append; rewrite starts_with_cons;
      [rewrite H4 | rewrite H5 | rewrite H6]; discriminate.
  - rewrite (substitute_other _ _ E), !starts_with_cons.
    destruct (Ascii.eqb a c); [|discriminate]. now apply IH.
Qed.

(** no key stands at the head of the output *)
Lemma no_key_at_head key replacement t :
  (key, replacement) ∈ dialect_patterns ->
  Text.starts_with key (substitute dialect_patterns 0 t) = false.
Proof.
  intros Hin. destruct t as [|c t].
  - destruct (dialect_cases _ _ Hin) as [X|[X|X]]; injection X as -> ->; reflexivity.
  - destruct (first_match dialect_patterns (String c t)) as [[k v]|] eqn:E.
    + apply first_match_Some in E as [Hk Hs].
      rewrite (starts_with_split _ _ Hs), (substitute_match _ _ _ Hk).
      destruct (dialect_cases _ _ Hin) as [X|[X|X]]; injection X as -> ->;
        destruct (dialect_cases _ _ Hk) as [Y|[Y|Y]]; injection Y as -> ->; reflexivity.
    + rewrite (substitute_other _ _ E).
      apply first_match_None in E as (H1 & H2 & H3).
      destruct (dialect_cases _ _ Hin) as [X|[X|X]]; injection X as -> ->;
        unfold Render.char; rewrite starts_with_cons in *.
      * now rewrite H1.
      * destruct (Ascii.eqb "F" c); [|reflexivity].
        destruct (Text.starts_with "alse" (substitute dialect_patterns 0 t)) eqn:S;
          [|reflexivity].
        now rewrite <- H2, (starts_with_output "alse" t eq_refl S).
      * destruct (Ascii.eqb "T" c); [|reflexivity].
        destruct (Text.starts_with "rue" (substitute dialect_patterns 0 t)) eqn:S;
          [|reflexivity].
        now rewrite <- H3, (starts_with_output "rue" t eq_refl S).
Qed.

Lemma contains_cons p c s :
  Text.contains p (String c s) = Text.starts_with p (String c s) || Text.contains p s.
Proof. reflexivity. Qed.

(** the output holds no key anywhere *)
Lemma no_key_in_output t : forall key replacement,
  (key, replacement) ∈ dialect_patterns ->
  Text.contains key (substitute dialect_patterns 0 t) = false.
Proof.
  induction t as [| c t Hnone IH | k v t Hk IH] using dialect_scan_ind;
    intros key replacement Hin.
  - destruct (dialect_cases _ _ Hin) as [X|[X|X]]; injection X as -> ->; reflexivity.
  - pose proof (no_key_at_head _ _ (String c t) Hin) as Hh.
    rewrite (substitute_other _ _ Hnone) in *.
    now rewrite contains_cons, Hh, (IH _ _ Hin).
  - rewrite (substitute_match _ _ _ Hk).
    pose proof (IH _ _ Hin) as Ht.
    destruct (dialect_cases _ _ Hin) as [X|[X|X]]; injection X as -> ->;
      destruct (dialect_cases _ _ Hk) as [Y|[Y|Y]]; injection Y as -> ->;
      unfold Render.char in *; simpl String.append; rewrite !contains_cons, Ht; reflexivity.
Qed.

Lemma contains_at_head p s : Text.contains p (p +:+ s) = true.
Proof.
  destruct p as [|a p]; [now destruct s|].
  simpl String.append. rewrite contains_cons.
  change (String a (p +:+ s)) with (String a p +:+ s).
  now rewrite starts_with_append.
Qed.

(** a text that holds no key goes through the scan unchanged *)
Lemma substitute_without_keys t :
  (forall key replacement,
      (key, replacement) ∈ dialect_patterns -> Text.contains key t = false) ->
  substitute dialect_patterns 0 t = t.
Proof.
  induction t as [| c t Hnone IH | k v t Hk IH] using dialect_scan_ind; intros H.
  - reflexivity.
  - rewrite (substitute_other _ _ Hnone). f_equal. apply IH.
    intros key replacement Hin. specialize (H _ _ Hin).
    rewrite contains_cons in H. now apply orb_false_iff in H.
  - specialize (H _ _ Hk). now rewrite contains_at_head in H.
Qed.

(** C9: with the dialect table, [multiple_replace] makes one pass from
    left to right and replaces every occurrence of every key: a text
    with a key in it gives the output of what precedes the key, the
    key's replacement, and the output of what follows; this holds
    inside double-quoted content as anywhere else.  The output holds
    no key, and a text that holds no key is returned as it is. *)
Theorem multiple_replace_dialect :
  (forall pre key replacement post,
      (key, replacement) ∈ dialect_patterns ->
      exists a b,
        multiple_replace dialect_patterns pre = Ok a /\
        multiple_replace dialect_patterns post = Ok b /\
        multiple_replace dialect_patterns (pre +:+ key +:+ post)
        = Ok (a +:+ replacement +:+ b)) /\
  (forall text key replacement,
      (key, replacement) ∈ dialect_patterns ->
      exists out,
        multiple_replace dialect_patterns text = Ok out /\
        Text.contains key out = false) /\
  (forall text,
      (forall key replacement,
          (key, replacement) ∈ dialect_patterns -> Text.contains key text = false) ->
      multiple_replace dialect_patterns text = Ok text) /\
  (let dq := Render.char Render.dquote in
   multiple_replace dialect_patterns
     ("{'msg': " +:+ dq +:+ "it's True" +:+ dq +:+ ", 'on': False}")
   = Ok ("{" +:+ dq +:+ "msg" +:+ dq +:+ ": " +:+ dq +:+ "it" +:+ dq +:+ "s true"
         +:+ dq +:+ ", " +:+ dq +:+ "on" +:+ dq +:+ ": false}")).
Proof.
  split; [|split; [|split]].
  - intros pre key replacement post Hin.
    exists (substitute dialect_patterns 0 pre), (substitute dialect_patterns 0 post).
    repeat split. unfold multiple_replace, dialect_patterns at 1.
    f_equal. now apply substitute_occurrence.
  - intros text key replacement Hin.
    exists (substitute dialect_patterns 0 text). split; [reflexivity|].
    now apply no_key_in_output with replacement.
  - intros text H. unfold multiple_replace, dialect_patterns at 1.
    f_equal. now apply substitute_without_keys.
  - reflexivity.
Qed.

Lemma multiple_replace_dialect_witness :
  (exists a b,
      multiple_replace dialect_patterns "x = " = Ok a /\
      multiple_replace dialect_patterns " or Falsehood" = Ok b /\
      multiple_replace dialect_patterns ("x = " +:+ "True" +:+ " or Falsehood")
      = Ok (a +:+ "true" +:+ b)) /\
  (exists out,
      multiple_replace dialect_patterns "TTruerue 'False'" = Ok out /\
      Text.contains "True" out = false) /\
  multiple_replace dialect_patterns "{1: [2, 3]}" = Ok "{1: [2, 3]}".
Proof.
  destruct multiple_replace_dialect as (Hocc & Hout & Hsame & _).
  split; [|split].
  - apply (Hocc "x = " "True" "true" " or Falsehood").
    apply (bool_decide_unpack _). now vm_compute.
  - apply (Hout "TTruerue 'False'" "True" "true").
    apply (bool_decide_unpack _). now vm_compute.
  - apply (Hsame "{1: [2, 3]}").
    intros key replacement Hin.
    destruct (dialect_cases _ _ Hin) as [E|[E|E]]; injection E as -> ->; reflexivity.
Defined.

(** ** Key Remapper *)

Lemma remap_step_plain d k : has_underscore k = false -> Pure.remap_step d k = d.
Proof. unfold Pure.remap_step. now intros ->. Qed.

Lemma remap_step_snake d k v :
  has_underscore k = true -> Dict.lookup k d = Some v ->
  Pure.remap_step d k = Dict.store (camel_and_lower k) v (Dict.remove k d).
Proof. unfold Pure.remap_step. now intros -> ->. Qed.

Lemma wf_remap_step d k : Dict.wf d -> Dict.wf (Pure.remap_step d k).
Proof.
  intros W. unfold Pure.remap_step.
  destruct (has_underscore k); [|assumption].
  destruct (Dict.lookup k d); [|assumption].
  now apply wf_store, wf_remove.
Qed.

Lemma wf_remap_fold ks : forall d,
  Dict.wf d -> Dict.wf (fold_left Pure.remap_step ks d).
Proof.
  induction ks as [|k ks IH]; intros d W; cbn; [assumption|].
  now apply IH, wf_remap_step.
Qed.

(** a key without underscore that is no camel-cased form of a
    processed key keeps its binding *)
Lemma remap_fold_plain_lookup c ks : forall d,
  has_underscore c = false ->
  (forall k, k ∈ ks -> has_underscore k = true -> camel_and_lower k <> c) ->
  Dict.lookup c (fold_left Pure.remap_step ks d) = Dict.lookup c d.
Proof.
  induction ks as [|k ks IH]; intros d Hc Hne; cbn; [reflexivity|].
  rewrite IH; [|exact Hc | intros k' ? ?; apply Hne; [now right | assumption]].
  unfold Pure.remap_step. destruct (has_underscore k) eqn:U; [|reflexivity].
  destruct (Dict.lookup k d) as [v|]; [|reflexivity].
  rewrite lookup_store_ne by (intros E; symmetry in E; revert E; apply Hne; [left | exact U]).
  apply lookup_remove_ne. intros ->. congruence.
Qed.

(** a key with an underscore keeps its binding until its turn comes *)
Lemma remap_fold_snake_lookup s ks : forall d,
  has_underscore s = true -> s ∉ ks ->
  Dict.lookup s (fold_left Pure.remap_step ks d) = Dict.lookup s d.
Proof.
  induction ks as [|k ks IH]; intros d Hs Hn; cbn; [reflexivity|].
  apply not_elem_of_cons in Hn as [Hne Hn].
  rewrite IH by assumption.
  unfold Pure.remap_step. destruct (has_underscore k) eqn:U; [|reflexivity].
  destruct (Dict.lookup k d) as [v|]; [|reflexivity].
  rewrite lookup_store_ne.
  - now apply lookup_remove_ne.
  - intros ->. now rewrite camel_and_lower_clean in Hs.
Qed.

(** after the loop no key holds an underscore *)
Lemma remap_fold_clean ks : forall d,
  Dict.wf d ->
  (forall k, k ∈ Dict.keys d -> has_underscore k = true -> k ∈ ks) ->
  forall k, k ∈ Dict.keys (fold_left Pure.remap_step ks d) -> has_underscore k = false.
Proof.
  induction ks as [|k0 ks IH]; intros d W Hall k Hk; cbn in Hk.
  - destruct (has_underscore k) eqn:U; [|reflexivity].
    specialize (Hall k Hk U). inversion Hall.
  - apply (IH (Pure.remap_step d k0)); [now apply wf_remap_step | | exact Hk].
    clear k Hk. intros k Hk U.
    assert (k <> k0 -> k ∈ Dict.keys d -> k ∈ ks) as Hin.
    { intros Hne Hd. specialize (Hall k Hd U).
      apply elem_of_cons in Hall as [?|?]; [contradiction | assumption]. }
    unfold Pure.remap_step in Hk. destruct (has_underscore k0) eqn:U0.
    + destruct (Dict.lookup k0 d) as [v|] eqn:L.
      * apply keys_store in Hk as [->|Hk]; [now rewrite camel_and_lower_clean in U|].
        apply Hin; [|eapply keys_remove_sub, Hk].
        intros ->. revert Hk. now apply keys_remove_eq.
      * apply Hin; [|exact Hk]. intros ->.
        apply lookup_in_keys in Hk as [v Hv]. congruence.
    + apply Hin; [|exact Hk]. intros ->. congruence.
Qed.

Lemma remap_fold_noop ks : forall d,
  (forall k, k ∈ ks -> has_underscore k = false) ->
  fold_left Pure.remap_step ks d = d.
Proof.
  induction ks as [|k ks IH]; intros d H; cbn; [reflexivity|].
  rewrite remap_step_plain by (apply H; left).
  apply IH. intros k' ?. apply H. now right.
Qed.

Lemma remap_keys_clean d k :
  Dict.wf d -> k ∈ Dict.keys (Pure.remap_keys d) -> has_underscore k = false.
Proof. intros W. apply remap_fold_clean; auto. Qed.

Lemma remap_keys_idempotent d :
  Dict.wf d -> Pure.remap_keys (Pure.remap_keys d) = Pure.remap_keys d.
Proof.
  intros W. unfold Pure.remap_keys at 1. apply remap_fold_noop.
  intros k. now apply remap_keys_clean.
Qed.

(** the value an underscored key had goes to its camel-cased name,
    where it stays if no later key is renamed to the same name *)
Lemma remap_keys_renames d ks1 s ks2 v :
  Dict.wf d ->
  Dict.keys d = ks1 ++ s :: ks2 ->
  has_underscore s = true ->
  Dict.lookup s d = Some v ->
  (forall k, k ∈ ks2 -> has_underscore k = true -> camel_and_lower k <> camel_and_lower s) ->
  Dict.lookup (camel_and_lower s) (Pure.remap_keys d) = Some v.
Proof.
  intros W E U L Hlater. unfold Pure.remap_keys. rewrite E, fold_left_app. cbn [fold_left].
  rewrite remap_fold_plain_lookup; [| apply camel_and_lower_clean | exact Hlater].
  unfold Dict.wf in W. rewrite E in W. apply NoDup_app in W as (_ & Hdisj & _).
  erewrite remap_step_snake; [apply lookup_store_eq | exact U |].
  rewrite remap_fold_snake_lookup; [exact L | exact U |].
  intros Hin. apply (Hdisj _ Hin). left.
Qed.

(** C7, as the claim states it, fails: a key without underscore does
    not always keep its binding.  In [{aB: 1, a_b: 2}] the key [a_b]
    is renamed to [aB] and overwrites the binding [aB] had. *)
Lemma lower_camel_case_keys_rebinds_plain_key :
  ~ (forall (h : heap) (l : loc) (d d' : dict) (k : string),
        h !! l = Some d -> Dict.wf d ->
        lower_camel_case_keys l h = (Ok tt, <[l := d']> h) ->
        has_underscore k = false ->
        Dict.lookup k d' = Dict.lookup k d).
Proof.
  intros H.
  specialize (H [[("aB", VInt 1); ("a_b", VInt 2)]] 0
                [("aB", VInt 1); ("a_b", VInt 2)] [("aB", VInt 2)] "aB").
  discriminate H; try reflexivity.
  apply (bool_decide_unpack _). now vm_compute.
Qed.

(** C7 (amended): [lower_camel_case_keys] succeeds and rewrites the
    dictionary in place so that: a key without underscore keeps its
    binding unless it is the camel-cased name of an underscored key of
    the dictionary; no key of the result holds an underscore; the
    value of an underscored key is found under its camel-cased name
    unless a later underscored key has the same camel-cased name; a
    dictionary without underscored keys is left as it is; and running
    the operation again changes nothing. *)
Theorem lower_camel_case_keys_renames (h : heap) (l : loc) (d : dict) :
  h !! l = Some d -> Dict.wf d ->
  exists d',
    lower_camel_case_keys l h = (Ok tt, <[l := d']> h) /\
    (forall k,
        has_underscore k = false ->
        (forall s, s ∈ Dict.keys d -> has_underscore s = true -> camel_and_lower s <> k) ->
        Dict.lookup k d' = Dict.lookup k d) /\
    (forall k, k ∈ Dict.keys d' -> has_underscore k = false) /\
    (forall ks1 s ks2 v,
        Dict.keys d = ks1 ++ s :: ks2 ->
        has_underscore s = true ->
        Dict.lookup s d = Some v ->
        (forall k, k ∈ ks2 -> has_underscore k = true ->
                   camel_and_lower k <> camel_and_lower s) ->
        Dict.lookup (camel_and_lower s) d' = Some v) /\
    ((forall k, k ∈ Dict.keys d -> has_underscore k = false) -> d' = d) /\
    lower_camel_case_keys l (<[l := d']> h) = (Ok tt, <[l := d']> h).
Proof.
  intros H W. exists (Pure.remap_keys d).
  split; [now apply lower_camel_case_keys_run|].
  split; [intros k Hk Hne; now apply remap_fold_plain_lookup|].
  split; [intros k; now apply remap_keys_clean|].
  split; [intros ks1 s ks2 v; now apply remap_keys_renames|].
  split; [now apply remap_fold_noop|].
  rewrite (lower_camel_case_keys_run l _ (Pure.remap_keys d)).
  - now rewrite remap_keys_idempotent, list_insert_insert_eq.
  - eapply lookup_write, H.
  - now apply wf_remap_fold.
Qed.

Lemma lower_camel_case_keys_renames_witness :
  exists d',
    lower_camel_case_keys 0 [[("aB", VInt 1); ("a_b", VInt 2); ("x_y", VInt 3)]]
    = (Ok tt, [d']) /\
    Dict.lookup "xY" d' = Some (VInt 3) /\
    lower_camel_case_keys 0 [d'] = (Ok tt, [d']).
Proof.
  destruct (lower_camel_case_keys_renames
              [[("aB", VInt 1); ("a_b", VInt 2); ("x_y", VInt 3)]] 0
              [("aB", VInt 1); ("a_b", VInt 2); ("x_y", VInt 3)])
    as (d' & Hrun & _ & _ & Hren & _ & Hidem).
  - reflexivity.
  - apply (bool_decide_unpack _). now vm_compute.
  - exists d'. split; [exact Hrun|]. split; [|exact Hidem].
    apply (Hren ["aB"; "a_b"] "x_y" [] (VInt 3)); try reflexivity.
    intros k Hk. inversion Hk.
Defined.

(** ** The source object is not written to *)

Lemma frames_ret {A} n (a : A) : frames n (ret a).
Proof. intros h _. cbn. auto. Qed.

Lemma frames_raise {A} n e : frames n (@raise A e).
Proof. intros h _. cbn. auto. Qed.

Lemma frames_lift {A} n (r : result A) : frames n (lift r).
Proof. destruct r; [apply frames_ret | apply frames_raise]. Qed.

Lemma frames_bind {A B} n (m : M A) (k : A -> M B) :
  frames n m -> (forall a, frames n (k a)) -> frames n (bind m k).
Proof.
  intros Hm Hk h Hl. unfold bind.
  destruct (Hm h Hl) as [Ht Hlen].
  destruct (m h) as [[a|e] h'] eqn:E; cbn [snd] in *; [|auto].
  destruct (Hk a h') as [Ht' Hlen']; [lia|].
  split; [congruence | lia].
Qed.

Lemma frames_read n l : frames n (Heap.read l).
Proof. intros h _. unfold Heap.read. destruct (h !! l); cbn; auto. Qed.

Lemma frames_write n l d : n <= l -> frames n (Heap.write l d).
Proof.
  intros Hn h _. unfold Heap.write. destruct (h !! l); cbn; [|auto].
  split; [now apply take_insert_ge | now rewrite length_insert].
Qed.

(** what follows an allocation may rely on the new location being new *)
Lemma frames_alloc {B} n d (k : loc -> M B) :
  (forall l, n <= l -> frames n (k l)) -> frames n (bind (Heap.alloc d) k).
Proof.
  intros Hk h Hl. unfold bind, Heap.alloc.
  destruct (Hk (length h) Hl (h ++ [d])) as [Ht Hlen].
  { rewrite length_app. lia. }
  rewrite Ht, take_app_le by assumption.
  rewrite length_app in Hlen. cbn in Hlen. split; [reflexivity | lia].
Qed.

Lemma frames_for_each {A} n (xs : list A) body :
  (forall x, frames n (body x)) -> frames n (for_each xs body).
Proof.
  intros Hb. induction xs as [|x xs IH]; cbn [for_each]; [apply frames_ret|].
  apply frames_bind; auto.
Qed.

Lemma frames_map_M {A B} n (f : A -> M B) xs :
  (forall x, frames n (f x)) -> frames n (map_M f xs).
Proof.
  intros Hf. induction xs as [|x xs IH]; cbn [map_M]; [apply frames_ret|].
  apply frames_bind; [auto|]. intros y.
  apply frames_bind; [auto|]. intros ys. apply frames_ret.
Qed.

Lemma frames_get n l k : frames n (Heap.get l k).
Proof. apply frames_bind; [apply frames_read | intros; apply frames_ret]. Qed.

Lemma frames_keys n l : frames n (Heap.keys l).
Proof. apply frames_bind; [apply frames_read | intros; apply frames_ret]. Qed.

Lemma frames_delitem n l k : n <= l -> frames n (Heap.delitem l k).
Proof.
  intros Hn. apply frames_bind; [apply frames_read|]. intros d.
  destruct (Dict.lookup k d); [now apply frames_write | apply frames_raise].
Qed.

Lemma frames_pop n l k : n <= l -> frames n (Heap.pop l k).
Proof.
  intros Hn. apply frames_bind; [apply frames_read|]. intros d.
  destruct (Dict.lookup k d); [|apply frames_raise].
  apply frames_bind; [now apply frames_write | intros; apply frames_ret].
Qed.

Lemma frames_setitem n l k v : n <= l -> frames n (Heap.setitem l k v).
Proof.
  intros Hn. apply frames_bind; [apply frames_read|]. intros d.
  now apply frames_write.
Qed.

Lemma frames_drop_ignored n attrs : n <= attrs -> frames n (drop_ignored attrs).
Proof.
  intros Hn. apply frames_for_each. intros k.
  apply frames_bind; [apply frames_get|]. intros v.
  destruct (truthy v); [now apply frames_delitem | apply frames_ret].
Qed.

Lemma frames_lower_camel_case_keys n attrs :
  n <= attrs -> frames n (lower_camel_case_keys attrs).
Proof.
  intros Hn. apply frames_bind; [apply frames_keys|]. intros ks.
  apply frames_for_each. intros k.
  destruct (negb (has_underscore k)); [apply frames_ret|].
  apply frames_bind; [now apply frames_pop|]. intros v. now apply frames_setitem.
Qed.

Lemma local_remap_default : local_remap default_remap.
Proof. intros n attrs Hn. now apply frames_lower_camel_case_keys. Qed.

Lemma local_remap_none : local_remap None.
Proof. intros n attrs Hn. apply frames_ret. Qed.

Lemma frames_default_serialize n o remap :
  local_remap remap -> frames n (default_serialize o remap).
Proof.
  intros Hr. unfold default_serialize, vars.
  apply frames_bind.
  { apply frames_bind; [apply frames_read | intros; apply frames_ret]. }
  intros attrs0. apply frames_bind; [apply frames_read|]. intros d.
  apply frames_alloc. intros attrs Hn.
  apply frames_bind; [now apply frames_drop_ignored|]. intros _.
  apply frames_bind; [now apply Hr|]. intros _. apply frames_ret.
Qed.

Lemma frames_iterencode n : forall fuel markers v, frames n (iterencode fuel markers v).
Proof.
  induction fuel as [|fuel IH]; intros markers v; cbn [iterencode]; [apply frames_raise|].
  destruct v as [| [|] | z | s | items | entries | o]; try apply frames_ret.
  - apply frames_bind; [now apply frames_map_M | intros; apply frames_ret].
  - apply frames_bind; [|intros; apply frames_ret].
    apply frames_map_M. intros kv.
    apply frames_bind; [apply IH | intros; apply frames_ret].
  - destruct (bool_decide (o ∈ markers)); [apply frames_raise|].
    apply frames_bind; [apply frames_default_serialize, local_remap_default|].
    intros attrs. apply frames_bind; [apply frames_read|]. intros d. apply IH.
Qed.

Lemma frames_is_array n den v : frames n (is_array den v).
Proof.
  apply frames_bind; [|intros; apply frames_ret].
  unfold load_global. destruct (bool_decide _); [apply frames_ret | apply frames_raise].
Qed.

Lemma frames_py_list n v : frames n (py_list v).
Proof. destruct v; try apply frames_raise; apply frames_ret. Qed.

Lemma frames_all_numpy_to_list n den : forall fuel v,
  frames n (all_numpy_to_list den fuel v).
Proof.
  induction fuel as [|fuel IH]; intros v; cbn [all_numpy_to_list]; [apply frames_raise|].
  apply frames_bind.
  { destruct v; try apply frames_ret.
    apply frames_bind; [|intros; apply frames_ret].
    apply frames_map_M. intros kv.
    apply frames_bind; [apply IH | intros; apply frames_ret]. }
  intros obj. apply frames_bind; [apply frames_is_array|]. intros [|]; [|apply frames_ret].
  apply frames_bind; [apply frames_py_list|]. intros items.
  apply frames_bind; [|intros; apply frames_ret].
  apply frames_map_M. intros item.
  apply frames_bind; [apply frames_is_array|]. intros ai.
  destruct (ai || is_dict item); [apply IH | apply frames_ret].
Qed.

Lemma frames_py_repr n repr_obj :
  (forall o, frames n (repr_obj o)) ->
  forall fuel v, frames n (py_repr repr_obj fuel v).
Proof.
  intros Ho. induction fuel as [|fuel IH]; intros v; cbn [py_repr]; [apply frames_raise|].
  destruct v as [| [|] | z | s | items | entries | o]; try apply frames_ret.
  - apply frames_bind; [now apply frames_map_M | intros; apply frames_ret].
  - apply frames_bind; [|intros; apply frames_ret].
    apply frames_map_M. intros kv.
    apply frames_bind; [apply IH | intros; apply frames_ret].
  - apply Ho.
Qed.

Lemma frames_julia n den : forall fuel o remap,
  local_remap remap ->
  frames n (julia_pycall_compatible_serialize den fuel o remap).
Proof.
  induction fuel as [|fuel IH]; intros o remap Hr;
    cbn [julia_pycall_compatible_serialize]; [apply frames_raise|].
  unfold vars. apply frames_bind.
  { apply frames_bind; [apply frames_read | intros; apply frames_ret]. }
  intros attrs0. apply frames_bind; [apply frames_read|]. intros d.
  apply frames_bind.
  { apply frames_map_M. intros kv.
    apply frames_bind; [apply frames_all_numpy_to_list | intros; apply frames_ret]. }
  intros entries. apply frames_alloc. intros attrs Hn.
  apply frames_bind; [now apply frames_drop_ignored|]. intros _.
  apply frames_bind; [now apply Hr|]. intros _.
  apply frames_bind; [apply frames_read|]. intros d'.
  apply frames_bind; [|intros; apply frames_lift].
  apply frames_py_repr. intros o'. apply IH, local_remap_default.
Qed.

(** a computation that frames the whole heap only adds objects to it *)
Lemma frames_extends {A} (m : M A) (h : heap) :
  frames (length h) m -> exists extra, snd (m h) = h ++ extra.
Proof.
  intros Hm. destruct (Hm h) as [Ht _]; [lia|].
  exists (drop (length h) (snd (m h))).
  rewrite <- (take_drop (length h) (snd (m h))) at 1.
  now rewrite Ht, firstn_all.
Qed.

Lemma frames_keeps_objects {A} (m : M A) (h : heap) l (d : dict) :
  frames (length h) m -> h !! l = Some d -> snd (m h) !! l = Some d.
Proof.
  intros Hm Hl. destruct (frames_extends m h Hm) as [extra ->].
  rewrite lookup_app_l; [exact Hl | eapply lookup_lt_Some, Hl].
Qed.

Lemma bind_Ok_inv {A B} (m : M A) (k : A -> M B) h b h' :
  bind m k h = (Ok b, h') -> exists a h1, m h = (Ok a, h1) /\ k a h1 = (Ok b, h').
Proof.
  unfold bind. destruct (m h) as [[a|e] h1]; [eauto | discriminate].
Qed.

(** the dictionary [default_serialize] returns is a new object *)
Lemma default_serialize_fresh o remap (h : heap) attrs h' :
  default_serialize o remap h = (Ok attrs, h') ->
  attrs <> o /\ h !! attrs = None.
Proof.
  unfold default_serialize, vars. intros H.
  apply bind_Ok_inv in H as (a0 & h0 & H0 & H).
  apply bind_Ok_inv in H0 as (d0 & h0' & Hr & Hret).
  unfold Heap.read in Hr. destruct (h !! o) as [d|] eqn:Ho; [|discriminate].
  injection Hr as <- <-. injection Hret as <- <-.
  apply bind_Ok_inv in H as (d1 & h1 & Hr & H).
  unfold Heap.read in Hr. rewrite Ho in Hr. injection Hr as <- <-.
  apply bind_Ok_inv in H as (a & h2 & Ha & H).
  unfold Heap.alloc in Ha. injection Ha as <- <-.
  apply bind_Ok_inv in H as (? & h3 & _ & H).
  apply bind_Ok_inv in H as (? & h4 & _ & H).
  injection H as <- <-.
  pose proof (lookup_lt_Some _ _ _ Ho). split; [lia | now apply lookup_ge_None_2].
Qed.

(** C6: neither serializer writes to the attribute dictionary of the
    object it is given, nor to any object that exists when it is
    called, whether it returns or raises; the dictionary that is
    filtered and renamed is a new object, distinct from the source
    object's own. *)
Theorem serializers_keep_source_attributes den :
  (forall fuel v (h : heap) l (d : dict),
      h !! l = Some d -> snd (serialize fuel v h) !! l = Some d) /\
  (forall fuel o remap (h : heap) l (d : dict),
      local_remap remap -> h !! l = Some d ->
      snd (julia_pycall_compatible_serialize den fuel o remap h) !! l = Some d) /\
  (forall o remap (h : heap) l (d : dict),
      local_remap remap -> h !! l = Some d ->
      snd (default_serialize o remap h) !! l = Some d) /\
  (forall o remap (h : heap) attrs h',
      default_serialize o remap h = (Ok attrs, h') ->
      attrs <> o /\ h !! attrs = None) /\
  local_remap default_remap /\ local_remap None.
Proof.
  split; [|split; [|split; [|split; [|split]]]].
  - intros fuel v h l d. apply frames_keeps_objects, frames_iterencode.
  - intros fuel o remap h l d Hr. now apply frames_keeps_objects, frames_julia.
  - intros o remap h l d Hr. now apply frames_keeps_objects, frames_default_serialize.
  - apply default_serialize_fresh.
  - apply local_remap_default.
  - apply local_remap_none.
Qed.

Lemma serializers_keep_source_attributes_witness :
  snd (serialize 3 (VObj 0)
         [[("map_style", VStr "dark"); ("mapbox_key", VStr "secret")]]) !! 0
  = Some [("map_style", VStr "dark"); ("mapbox_key", VStr "secret")] /\
  snd (julia_pycall_compatible_serialize (fun _ => true) 3 0 default_remap
         [[("map_style", VStr "dark"); ("mapbox_key", VStr "secret")]]) !! 0
  = Some [("map_style", VStr "dark"); ("mapbox_key", VStr "secret")] /\
  (1 <> 0 /\
   [[("map_style", VStr "dark"); ("mapbox_key", VStr "secret")]] !! 1 = None).
Proof.
  destruct (serializers_keep_source_attributes (fun _ => true))
    as (Hs & Hj & _ & Hf & Hd & _).
  split; [|split].
  - apply Hs. reflexivity.
  - apply Hj; [exact Hd | reflexivity].
  - apply (Hf 0 default_remap
              [[("map_style", VStr "dark"); ("mapbox_key", VStr "secret")]] 1
              [[("map_style", VStr "dark"); ("mapbox_key", VStr "secret")];
               [("mapStyle", VStr "dark")]]).
    reflexivity.
Defined.

(** * Further properties *)

(** ** Key Transformer *)

Lemma to_camel_case_loop_plain s :
  has_underscore s = false -> to_camel_case_loop false s = s.
Proof.
  induction s as [|c s IH]; [reflexivity|].
  rewrite has_underscore_cons. intros [Hc Hs]%orb_false_iff.
  cbn [to_camel_case_loop]. rewrite Hc. now rewrite IH.
Qed.

Lemma lower_lower c : Text.lower (Text.lower c) = Text.lower c.
Proof. destruct c as [[] [] [] [] [] [] [] []]; reflexivity. Qed.

Lemma lower_first_letter_twice s :
  lower_first_letter (lower_first_letter s) = lower_first_letter s.
Proof. destruct s as [|c s]; [reflexivity|]. cbn. now rewrite lower_lower. Qed.

(** X1: a text without underscore goes through [to_camel_case]
    unchanged, and converting a converted text changes nothing. *)
Theorem to_camel_case_idempotent :
  (forall s, has_underscore s = false -> to_camel_case s = s) /\
  (forall s, to_camel_case (to_camel_case s) = to_camel_case s).
Proof.
  split.
  - apply to_camel_case_loop_plain.
  - intros s. apply to_camel_case_loop_plain, to_camel_case_loop_clean.
Qed.

Lemma to_camel_case_idempotent_witness :
  to_camel_case "mapStyle" = "mapStyle" /\
  to_camel_case (to_camel_case "get_fill_color") = to_camel_case "get_fill_color".
Proof.
  destruct to_camel_case_idempotent as [Hplain Hidem].
  split; [apply Hplain; reflexivity | apply Hidem].
Defined.

Lemma camel_and_lower_twice w :
  camel_and_lower (camel_and_lower w) = camel_and_lower w.
Proof.
  unfold camel_and_lower at 1. unfold to_camel_case.
  rewrite to_camel_case_loop_plain by apply camel_and_lower_clean.
  apply lower_first_letter_twice.
Qed.

(** X2: [camel_and_lower] gives a name without underscore, and
    applying it to its own result changes nothing. *)
Theorem camel_and_lower_stable w :
  has_underscore (camel_and_lower w) = false /\
  camel_and_lower (camel_and_lower w) = camel_and_lower w.
Proof.
  split; [apply camel_and_lower_clean | apply camel_and_lower_twice].
Qed.

Lemma to_camel_case_loop_length flag s :
  String.length (to_camel_case_loop flag s) + count_underscores s = String.length s.
Proof.
  revert flag. induction s as [|c s IH]; intros flag; [reflexivity|].
  cbn [to_camel_case_loop count_underscores String.length].
  destruct (Ascii.eqb c Text.underscore).
  - specialize (IH true). lia.
  - cbn [String.length]. specialize (IH false). lia.
Qed.

(** X3: the converted name is shorter than the attribute name by
    exactly the number of underscores, for [to_camel_case] and for
    [camel_and_lower] alike. *)
Theorem camel_case_length w :
  String.length (to_camel_case w) + count_underscores w = String.length w /\
  String.length (camel_and_lower w) + count_underscores w = String.length w.
Proof.
  pose proof (to_camel_case_loop_length false w) as H.
  split; [exact H|].
  unfold camel_and_lower, to_camel_case.
  destruct (to_camel_case_loop false w); exact H.
Qed.

(** ** Attribute Filter *)

(** X4: without remapping, [default_serialize] succeeds on every
    object and returns a new dictionary whose entries are entries of
    the object, in the object's order.  Key by key: an attribute is
    left out when its value is [None], or when its name is on the
    block-list and its value is truthy; every other attribute is kept
    with its value. *)
Theorem attribute_filter_by_key (h : heap) (o : loc) (d : dict) :
  h !! o = Some d -> Dict.wf d ->
  exists d',
    default_serialize o None h = (Ok (length h), h ++ [d']) /\
    d' `sublist_of` d /\
    forall k,
      Dict.lookup k d'
      = match Dict.lookup k d with
        | Some v =>
            if is_none v || (bool_decide (k ∈ IGNORE_KEYS) && truthy v)
            then None else Some v
        | None => None
        end.
Proof.
  intros H W. exists (Pure.drop_ignored (Pure.not_none d)).
  split; [now apply default_serialize_plain|].
  split; [etransitivity; [apply drop_fold_sublist | apply not_none_sublist]|].
  intros k. unfold Pure.drop_ignored.
  rewrite lookup_drop_fold by now apply wf_not_none.
  unfold Pure.get. rewrite lookup_not_none_wf by assumption.
  destruct (Dict.lookup k d) as [v|]; [|now rewrite andb_false_r].
  destruct (is_none v) eqn:E; cbn [orb].
  - now rewrite andb_false_r.
  - reflexivity.
Qed.

Lemma attribute_filter_by_key_witness :
  exists d',
    default_serialize 0 None
      [[("zoom", VInt 0); ("_kwargs", VDict [("a", VInt 1)]); ("pitch", VNone)]]
    = (Ok 1, [[("zoom", VInt 0); ("_kwargs", VDict [("a", VInt 1)]); ("pitch", VNone)]]
             ++ [d']) /\
    Dict.lookup "zoom" d' = Some (VInt 0) /\
    Dict.lookup "_kwargs" d' = None /\
    Dict.lookup "pitch" d' = None.
Proof.
  destruct (attribute_filter_by_key
              [[("zoom", VInt 0); ("_kwargs", VDict [("a", VInt 1)]); ("pitch", VNone)]] 0
              [("zoom", VInt 0); ("_kwargs", VDict [("a", VInt 1)]); ("pitch", VNone)])
    as (d' & Hrun & _ & Hk).
  - reflexivity.
  - apply (bool_decide_unpack _). now vm_compute.
  - exists d'. split; [exact Hrun|].
    split; [|split]; rewrite Hk; reflexivity.
Defined.

(** ** Key Remapper *)

Lemma length_store k v (d : dict) : length (Dict.store k v d) <= S (length d).
Proof.
  induction d as [|[k0 v0] d IH]; cbn; [lia|].
  destruct (String.eqb k k0); cbn; lia.
Qed.

Lemma length_remove k v (d : dict) :
  Dict.lookup k d = Some v -> S (length (Dict.remove k d)) = length d.
Proof.
  induction d as [|[k0 v0] d IH]; cbn; [discriminate|].
  destruct (String.eqb k k0); cbn; [reflexivity|].
  intros H. now rewrite IH.
Qed.

Lemma remap_fold_length ks : forall d : dict,
  length (fold_left Pure.remap_step ks d) <= length d.
Proof.
  induction ks as [|k ks IH]; intros d; cbn; [lia|].
  etransitivity; [apply IH|].
  unfold Pure.remap_step. destruct (has_underscore k); [|lia].
  destruct (Dict.lookup k d) as [v|] eqn:L; [|lia].
  pose proof (length_store (camel_and_lower k) v (Dict.remove k d)).
  pose proof (length_remove _ _ _ L). lia.
Qed.

(** every entry after the loop holds the value of an entry before it,
    under the same key or under that key's camel-cased name *)
Lemma remap_fold_entry ks : forall (d : dict) k v,
  (k, v) ∈ fold_left Pure.remap_step ks d ->
  exists k0, (k0, v) ∈ d /\ (k = k0 \/ k = camel_and_lower k0).
Proof.
  induction ks as [|s ks IH]; intros d k v; cbn [fold_left]; [eauto|].
  intros H. apply IH in H as (k1 & H1 & Hk).
  unfold Pure.remap_step in H1. destruct (has_underscore s); [|eauto].
  destruct (Dict.lookup s d) as [v0|] eqn:L; [|eauto].
  apply entry_store in H1 as [[= -> ->]|H1].
  - exists s. split; [now apply lookup_entry|]. right.
    destruct Hk as [->| ->]; [reflexivity|].
    apply camel_and_lower_twice.
  - exists k1. split; [eapply entry_remove, H1 | exact Hk].
Qed.

(** X5: [lower_camel_case_keys] invents nothing and adds nothing: it
    succeeds on every dictionary, the keys stay pairwise distinct,
    there are at most as many entries as before, and the value of
    every entry is the value some entry had before, under the same key
    or under that key's camel-cased name. *)
Theorem lower_camel_case_keys_provenance (h : heap) (l : loc) (d : dict) :
  h !! l = Some d -> Dict.wf d ->
  exists d',
    lower_camel_case_keys l h = (Ok tt, <[l := d']> h) /\
    Dict.wf d' /\
    length d' <= length d /\
    forall k v,
      (k, v) ∈ d' ->
      exists k0, (k0, v) ∈ d /\ (k = k0 \/ k = camel_and_lower k0).
Proof.
  intros H W. exists (Pure.remap_keys d).
  split; [now apply lower_camel_case_keys_run|].
  split; [now apply wf_remap_fold|].
  split; [apply remap_fold_length | apply remap_fold_entry].
Qed.

Lemma lower_camel_case_keys_provenance_witness :
  exists d',
    lower_camel_case_keys 0 [[("get_radius", VInt 7); ("getRadius", VInt 9)]]
    = (Ok tt, [d']) /\
    length d' <= 2.
Proof.
  destruct (lower_camel_case_keys_provenance
              [[("get_radius", VInt 7); ("getRadius", VInt 9)]] 0
              [("get_radius", VInt 7); ("getRadius", VInt 9)])
    as (d' & Hrun & _ & Hlen & _).
  - reflexivity.
  - apply (bool_decide_unpack _). now vm_compute.
  - exists d'. split; [exact Hrun | exact Hlen].
Defined.

Lemma default_serialize_entries (h : heap) (o : loc) (d : dict) :
  h !! o = Some d -> Dict.wf d ->
  exists d',
    default_serialize o default_remap h = (Ok (length h), h ++ [d']) /\
    Dict.wf d' /\
    (forall k, k ∈ Dict.keys d' -> has_underscore k = false) /\
    (forall k v,
        (k, v) ∈ d' ->
        is_none v = false /\
        exists k0, (k0, v) ∈ d /\ (k = k0 \/ k = camel_and_lower k0)).
Proof.
  intros H W.
  assert (Dict.wf (Pure.drop_ignored (Pure.not_none d))) as W'
    by now apply wf_drop_ignored, wf_not_none.
  exists (Pure.remap_keys (Pure.drop_ignored (Pure.not_none d))).
  split; [now apply default_serialize_default|].
  split; [now apply wf_remap_fold|].
  split; [intros k; now apply remap_keys_clean|].
  intros k v Hin. apply remap_fold_entry in Hin as (k0 & Hin & Hk).
  apply entry_drop_fold, entry_not_none in Hin as [Hin Hv].
  split; [exact Hv | eauto].
Qed.

(** X6: with the default remapping, [default_serialize] succeeds on
    every object; the dictionary it returns has pairwise distinct
    keys, none of which holds an underscore, holds no [None] value,
    and every value in it is the value of an attribute of the object
    whose name is the key or has the key as its camel-cased name. *)
Theorem default_serialize_result (h : heap) (o : loc) (d : dict) :
  h !! o = Some d -> Dict.wf d ->
  exists d',
    default_serialize o default_remap h = (Ok (length h), h ++ [d']) /\
    Dict.wf d' /\
    (forall k, k ∈ Dict.keys d' -> has_underscore k = false) /\
    (forall k v,
        (k, v) ∈ d' ->
        is_none v = false /\
        exists k0, (k0, v) ∈ d /\ (k = k0 \/ k = camel_and_lower k0)).
Proof. apply default_serialize_entries. Qed.

Lemma default_serialize_result_witness :
  exists d',
    default_serialize 0 default_remap
      [[("map_style", VStr "dark"); ("mapbox_key", VStr "pk"); ("views", VNone)]]
    = (Ok 1, [[("map_style", VStr "dark"); ("mapbox_key", VStr "pk"); ("views", VNone)]]
             ++ [d']) /\
    (forall k, k ∈ Dict.keys d' -> has_underscore k = false).
Proof.
  destruct (default_serialize_result
              [[("map_style", VStr "dark"); ("mapbox_key", VStr "pk"); ("views", VNone)]] 0
              [("map_style", VStr "dark"); ("mapbox_key", VStr "pk"); ("views", VNone)])
    as (d' & Hrun & _ & Hclean & _).
  - reflexivity.
  - apply (bool_decide_unpack _). now vm_compute.
  - exists d'. split; [exact Hrun | exact Hclean].
Defined.

(** ** Token substitution *)

Lemma first_match_no_prefix patterns t :
  (forall key replacement,
      (key, replacement) ∈ patterns -> Text.starts_with key t = false) ->
  first_match patterns t = None.
Proof.
  induction patterns as [|[k v] rest IH]; intros H; cbn; [reflexivity|].
  rewrite (H k v) by left. apply IH. intros key r Hin. apply (H key r). now right.
Qed.

Lemma contains_false_head p s :
  Text.contains p s = false -> Text.starts_with p s = false.
Proof. destruct s; cbn; intros H; now apply orb_false_iff in H. Qed.

Lemma substitute_unchanged patterns text :
  (forall key replacement,
      (key, replacement) ∈ patterns -> Text.contains key text = false) ->
  substitute patterns 0 text = text.
Proof.
  induction text as [|c t IH]; intros H; cbn [substitute].
  - rewrite first_match_no_prefix; [reflexivity|].
    intros key r Hin. eapply contains_false_head, H, Hin.
  - rewrite first_match_no_prefix.
    + f_equal. apply IH. intros key r Hin. specialize (H _ _ Hin).
      rewrite contains_cons in H. now apply orb_false_iff in H.
    + intros key r Hin. eapply contains_false_head, H, Hin.
Qed.

(** X7: whatever the table, as long as it has a key, a text in which
    no key occurs is returned as it is (the empty text in particular,
    when no key is empty). *)
Theorem multiple_replace_without_occurrence patterns text :
  patterns <> [] ->
  (forall key replacement,
      (key, replacement) ∈ patterns -> Text.contains key text = false) ->
  multiple_replace patterns text = Ok text.
Proof.
  intros Hne H. unfold multiple_replace.
  destruct patterns; [contradiction|]. f_equal. now apply substitute_unchanged.
Qed.

Lemma multiple_replace_without_occurrence_witness :
  multiple_replace [("&", "&amp;"); ("<", "&lt;")] "a > b" = Ok "a > b".
Proof.
  apply multiple_replace_without_occurrence; [discriminate|].
  intros key replacement Hin.
  apply elem_of_cons in Hin as [[= -> ->]|Hin]; [reflexivity|].
  apply elem_of_cons in Hin as [[= -> ->]|Hin]; [reflexivity|].
  inversion Hin.
Defined.

Lemma length_append (a b : string) :
  String.length (a +:+ b) = String.length a + String.length b.
Proof. induction a as [|c a IH]; simpl; [reflexivity | now rewrite IH]. Qed.

Lemma substitute_dialect_length t :
  String.length (substitute dialect_patterns 0 t) = String.length t.
Proof.
  induction t as [| c t Hnone IH | k v t Hk IH] using dialect_scan_ind.
  - reflexivity.
  - rewrite (substitute_other _ _ Hnone). cbn. now rewrite IH.
  - rewrite (substitute_match _ _ _ Hk), !length_append, IH.
    destruct (dialect_cases _ _ Hk) as [X|[X|X]]; injection X as -> ->; reflexivity.
Qed.

(** X8: with the dialect table the output is exactly as long as the
    input: each key is as long as its replacement. *)
Theorem multiple_replace_dialect_length text :
  exists out,
    multiple_replace dialect_patterns text = Ok out /\
    String.length out = String.length text.
Proof.
  exists (substitute dialect_patterns 0 text).
  split; [reflexivity | apply substitute_dialect_length].
Qed.

(** X9: with the dialect table, substituting in an already
    substituted text changes nothing. *)
Theorem multiple_replace_dialect_idempotent text :
  exists out,
    multiple_replace dialect_patterns text = Ok out /\
    multiple_replace dialect_patterns out = Ok out.
Proof.
  exists (substitute dialect_patterns 0 text). split; [reflexivity|].
  unfold multiple_replace, dialect_patterns at 1. f_equal.
  apply substitute_without_keys. intros key replacement Hin.
  now apply no_key_in_output with replacement.
Qed.

(** ** Standard Serializer *)

Lemma insert_item_perm kv (d : dict) : insert_item kv d ≡ₚ kv :: d.
Proof.
  induction d as [|kv' d IH]; cbn; [reflexivity|].
  destruct (String.leb (fst kv) (fst kv')); [reflexivity|].
  rewrite IH. apply Permutation_swap.
Qed.

Lemma sort_items_perm (d : dict) : sort_items d ≡ₚ d.
Proof.
  induction d as [|kv d IH]; cbn; [reflexivity|].
  rewrite insert_item_perm. now rewrite IH.
Qed.

Lemma insert_item_head kv a (d : dict) :
  key_le a kv -> HdRel key_le a d -> HdRel key_le a (insert_item kv d).
Proof.
  intros Ha Hd. destruct d as [|kv' d]; cbn; [now constructor|].
  destruct (String.leb (fst kv) (fst kv')); constructor; [assumption|].
  now inversion Hd.
Qed.

Lemma insert_item_sorted kv (d : dict) :
  Sorted key_le d -> Sorted key_le (insert_item kv d).
Proof.
  induction d as [|kv' d IH]; cbn; intros S.
  - repeat constructor.
  - inversion S as [|? ? S' Hd]; subst.
    destruct (String.leb (fst kv) (fst kv')) eqn:E.
    + constructor; [assumption|]. now constructor.
    + constructor; [now apply IH|].
      apply insert_item_head; [|assumption].
      unfold key_le. destruct (String.leb_total (fst kv) (fst kv')); congruence.
Qed.

Lemma sort_items_sorted (d : dict) : Sorted key_le (sort_items d).
Proof.
  induction d as [|kv d IH]; cbn; [constructor | now apply insert_item_sorted].
Qed.

Lemma compare_not_gt_trans a : forall b c,
  String.compare a b <> Gt -> String.compare b c <> Gt -> String.compare a c <> Gt.
Proof.
  induction a as [|x a IH]; intros [|y b] [|z c]; simpl; try congruence.
  unfold Ascii.compare.
  destruct (N.compare_spec (N_of_ascii x) (N_of_ascii y)),
           (N.compare_spec (N_of_ascii y) (N_of_ascii z)),
           (N.compare_spec (N_of_ascii x) (N_of_ascii z));
    try congruence; try lia.
  apply IH.
Qed.

Lemma key_le_trans a b c : key_le a b -> key_le b c -> key_le a c.
Proof.
  unfold key_le, String.leb. intros H1 H2.
  pose proof (compare_not_gt_trans (fst a) (fst b) (fst c)) as T.
  destruct (String.compare (fst a) (fst b)), (String.compare (fst b) (fst c)),
           (String.compare (fst a) (fst c)); try reflexivity; try discriminate;
    exfalso; apply T; congruence.
Qed.

Lemma key_le_refl a : key_le a a.
Proof. unfold key_le. now destruct (String.leb_total (fst a) (fst a)). Qed.

Lemma wf_perm (d1 d2 : dict) : d1 ≡ₚ d2 -> Dict.wf d1 -> Dict.wf d2.
Proof.
  unfold Dict.wf, Dict.keys. intros P W.
  assert (map fst d1 ≡ₚ map fst d2) as P' by now apply Permutation_map.
  now rewrite <- P'.
Qed.

(** two sorted dictionaries with the same entries are the same list *)
Lemma sorted_entries_unique (l1 : dict) : forall l2 : dict,
  Dict.wf l1 -> l1 ≡ₚ l2 ->
  StronglySorted key_le l1 -> StronglySorted key_le l2 -> l1 = l2.
Proof.
  induction l1 as [|a l1 IH]; intros l2 W P S1 S2.
  - now apply Permutation_nil in P.
  - destruct l2 as [|b l2].
    { symmetry in P. destruct (Permutation_nil_cons P). }
    pose proof (wf_perm _ _ P W) as W2.
    apply StronglySorted_inv in S1 as [S1 F1], S2 as [S2 F2].
    assert (key_le b a) as Hba.
    { assert (a ∈ b :: l2) as Hin by (rewrite <- P; left).
      apply elem_of_cons in Hin as [->|Hin]; [apply key_le_refl|].
      rewrite Forall_forall in F2. now apply F2. }
    assert (key_le a b) as Hab.
    { assert (b ∈ a :: l1) as Hin by (rewrite P; left).
      apply elem_of_cons in Hin as [->|Hin]; [apply key_le_refl|].
      rewrite Forall_forall in F1. now apply F1. }
    assert (a = b) as ->.
    { assert (a ∈ b :: l2) as Hin by (rewrite <- P; left).
      apply elem_of_cons in Hin as [?|Hin]; [assumption|]. exfalso.
      unfold Dict.wf in W2. cbn in W2. apply NoDup_cons in W2 as [Hn _].
      apply Hn. rewrite <- (String.leb_antisym _ _ Hab Hba).
      apply list_elem_of_In, in_map, list_elem_of_In, Hin. }
    f_equal. apply IH; [| now apply Permutation_cons_inv in P | assumption | assumption].
    unfold Dict.wf in *. cbn in W. now apply NoDup_cons in W as [_ W].
Qed.

Lemma sort_items_strongly_sorted (d : dict) : StronglySorted key_le (sort_items d).
Proof.
  apply Sorted_StronglySorted; [|apply sort_items_sorted].
  intros a b c. apply key_le_trans.
Qed.

Lemma sort_items_order_free (d1 d2 : dict) :
  Dict.wf d1 -> d1 ≡ₚ d2 -> sort_items d1 = sort_items d2.
Proof.
  intros W P. apply sorted_entries_unique.
  - eapply wf_perm; [symmetry; apply sort_items_perm | exact W].
  - now rewrite !sort_items_perm.
  - apply sort_items_strongly_sorted.
  - apply sort_items_strongly_sorted.
Qed.

(** X10: the insertion order of a dictionary does not show in what
    [serialize] does: two dictionaries with the same entries, entered
    in different orders, give the same text (or the same exception)
    and the same heap. *)
Theorem serialize_ignores_insertion_order fuel (d1 d2 : dict) (h : heap) :
  Dict.wf d1 -> d1 ≡ₚ d2 ->
  serialize fuel (VDict d1) h = serialize fuel (VDict d2) h.
Proof.
  intros W P. destruct fuel as [|fuel]; [reflexivity|].
  unfold serialize. cbn [iterencode].
  now rewrite (sort_items_order_free d1 d2 W P).
Qed.

Lemma serialize_ignores_insertion_order_witness :
  serialize 2 (VDict [("b", VInt 1); ("a", VInt 2)]) []
  = serialize 2 (VDict [("a", VInt 2); ("b", VInt 1)]) [].
Proof.
  apply serialize_ignores_insertion_order.
  - apply (bool_decide_unpack _). now vm_compute.
  - apply Permutation_swap.
Defined.

Lemma printable_append a b : printable (a +:+ b) = printable a && printable b.
Proof.
  induction a as [|c a IH]; simpl; [reflexivity|]. now rewrite IH, andb_assoc.
Qed.

Lemma printable_join sep parts :
  printable sep = true -> Forall (fun p => printable p = true) parts ->
  printable (Render.join sep parts) = true.
Proof.
  intros Hs H. induction H as [|p parts Hp Hps IH]; [reflexivity|].
  cbn [Render.join]. destruct parts as [|q parts]; [exact Hp|].
  now rewrite !printable_append, Hp, Hs, IH.
Qed.

Lemma printable_json_escape c : printable (Render.json_escape c) = true.
Proof. destruct c as [[] [] [] [] [] [] [] []]; reflexivity. Qed.

Lemma printable_json_string s : printable (Render.json_string s) = true.
Proof.
  unfold Render.json_string. cbn [printable].
  assert (printable (Render.flat_map_chars Render.json_escape s) = true) as H.
  { induction s as [|c s IH]; [reflexivity|].
    cbn [Render.flat_map_chars]. now rewrite printable_append, printable_json_escape. }
  now rewrite printable_append, H.
Qed.

Lemma printable_uint d : printable (NilEmpty.string_of_uint d) = true.
Proof. induction d; cbn [NilEmpty.string_of_uint printable]; try rewrite IHd; reflexivity. Qed.

Lemma printable_nilzero d : printable (NilZero.string_of_uint d) = true.
Proof.
  destruct d; try reflexivity;
    unfold NilZero.string_of_uint; apply printable_uint.
Qed.

Lemma printable_int_text n : printable (Render.int_text n) = true.
Proof.
  unfold Render.int_text, NilZero.string_of_int.
  destruct (Z.to_int n) as [d|d]; [apply printable_nilzero|].
  cbn [printable]. now rewrite printable_nilzero.
Qed.

(** what holds of every result of [f] holds of every element of the
    list [map_M f] returns *)
Lemma map_M_post {A B} (f : A -> M B) (P : B -> Prop) xs :
  (forall x h y h', f x h = (Ok y, h') -> P y) ->
  forall h ys h', map_M f xs h = (Ok ys, h') -> Forall P ys.
Proof.
  intros Hf. induction xs as [|x xs IH]; intros h ys h'; cbn [map_M].
  - intros [= <- <-]. constructor.
  - intros H. apply bind_Ok_inv in H as (y & h1 & Hy & H).
    apply bind_Ok_inv in H as (ys' & h2 & Hys & H).
    injection H as <- <-. constructor; [eapply Hf, Hy | eapply IH, Hys].
Qed.

Lemma iterencode_printable : forall fuel markers v (h : heap) text h',
  iterencode fuel markers v h = (Ok text, h') -> printable text = true.
Proof.
  induction fuel as [|fuel IH]; intros markers v h text h'; cbn [iterencode];
    [discriminate|].
  destruct v as [| [|] | z | s | items | entries | o].
  - now intros [= <- <-].
  - now intros [= <- <-].
  - now intros [= <- <-].
  - intros [= <- <-]. apply printable_int_text.
  - intros [= <- <-]. apply printable_json_string.
  - intros H. apply bind_Ok_inv in H as (parts & h1 & Hp & H).
    assert (text = "[" +:+ Render.join ", " parts +:+ "]") as ->
      by (unfold ret in H; congruence).
    rewrite !printable_append, printable_join; [reflexivity | reflexivity |].
    eapply map_M_post, Hp. intros x h0 y h0'. apply IH.
  - intros H. apply bind_Ok_inv in H as (parts & h1 & Hp & H).
    assert (text = "{" +:+ Render.join ", " parts +:+ "}") as ->
      by (unfold ret in H; congruence).
    rewrite !printable_append, printable_join; [reflexivity | reflexivity |].
    eapply map_M_post, Hp. intros kv h0 y h0' Hy.
    apply bind_Ok_inv in Hy as (t & h2 & Ht & Hy).
    assert (y = Render.json_string (fst kv) +:+ ": " +:+ t) as ->
      by (unfold ret in Hy; congruence).
    rewrite !printable_append, printable_json_string, (IH _ _ _ _ _ Ht). reflexivity.
  - destruct (bool_decide (o ∈ markers)); [discriminate|].
    intros H. apply bind_Ok_inv in H as (attrs & h1 & _ & H).
    apply bind_Ok_inv in H as (d & h2 & _ & H). eapply IH, H.
Qed.

(** X11: whatever [serialize] returns is printable ASCII: every
    character of the text lies between the space and the tilde,
    whatever characters the strings and keys of the value hold. *)
Theorem serialize_output_printable fuel v (h : heap) text h' :
  serialize fuel v h = (Ok text, h') -> printable text = true.
Proof. apply iterencode_printable. Qed.

Lemma serialize_output_printable_witness :
  printable
    (String (ascii_of_nat 34)
       ("caf" +:+ String (ascii_of_nat 92) ("u00e9" +:+ String (ascii_of_nat 34) EmptyString)))
  = true.
Proof.
  apply (serialize_output_printable 1
           (VStr ("caf" +:+ String (ascii_of_nat 233) EmptyString)) [] _ []).
  reflexivity.
Defined.

Lemma instance_free_item items x :
  instance_free (VList items) = true -> x ∈ items -> instance_free x = true.
Proof.
  cbn [instance_free]. induction items as [|y items IH]; intros H Hin; [inversion Hin|].
  apply andb_true_iff in H as [Hy H].
  apply elem_of_cons in Hin as [->|Hin]; [exact Hy | now apply IH].
Qed.

Lemma instance_free_entry entries kv :
  instance_free (VDict entries) = true -> kv ∈ entries -> instance_free (snd kv) = true.
Proof.
  cbn [instance_free]. induction entries as [|y entries IH]; intros H Hin; [inversion Hin|].
  apply andb_true_iff in H as [Hy H].
  apply elem_of_cons in Hin as [->|Hin]; [exact Hy | now apply IH].
Qed.

Lemma value_depth_item items x :
  x ∈ items -> value_depth x < value_depth (VList items).
Proof.
  cbn [value_depth]. induction items as [|y items IH]; intros Hin; [inversion Hin|].
  apply elem_of_cons in Hin as [->|Hin]; [lia|]. specialize (IH Hin). lia.
Qed.

Lemma value_depth_entry entries kv :
  kv ∈ entries -> value_depth (snd kv) < value_depth (VDict entries).
Proof.
  cbn [value_depth]. induction entries as [|y entries IH]; intros Hin; [inversion Hin|].
  apply elem_of_cons in Hin as [->|Hin]; [lia|]. specialize (IH Hin). lia.
Qed.

(** [map_M] of a function that returns on every element, and leaves
    the heap as it is, returns and leaves the heap as it is *)
Lemma map_M_returns {A B} (f : A -> M B) xs (h : heap) :
  (forall x, x ∈ xs -> exists y, f x h = (Ok y, h)) ->
  exists ys, map_M f xs h = (Ok ys, h).
Proof.
  induction xs as [|x xs IH]; intros H; cbn [map_M]; [now exists []|].
  destruct (H x) as [y Hy]; [left|].
  destruct IH as [ys Hys]; [intros x' ?; apply H; now right|].
  exists (y :: ys).
  erewrite bind_ok by exact Hy. erewrite bind_ok by exact Hys. reflexivity.
Qed.

(** [map_M] stops at the first element on which the function raises *)
Lemma map_M_raises {A B} (f : A -> M B) pre x rest (h : heap) e :
  (forall a, a ∈ pre -> exists y, f a h = (Ok y, h)) ->
  f x h = (Raise e, h) ->
  map_M f (pre ++ x :: rest) h = (Raise e, h).
Proof.
  induction pre as [|a pre IH]; intros H Hx; cbn [map_M app].
  - now erewrite bind_raise by exact Hx.
  - destruct (H a) as [y Hy]; [left|].
    erewrite bind_ok by exact Hy.
    erewrite bind_raise; [reflexivity|].
    apply IH; [|exact Hx]. intros a' ?. apply H. now right.
Qed.

Lemma iterencode_plain : forall fuel markers v (h : heap),
  instance_free v = true -> value_depth v <= fuel ->
  exists text, iterencode fuel markers v h = (Ok text, h).
Proof.
  induction fuel as [|fuel IH]; intros markers v h Hf Hd.
  - destruct v; cbn in Hd; lia.
  - cbn [iterencode]. destruct v as [| [|] | z | s | items | entries | o];
      try (eexists; reflexivity); [| |discriminate].
    + destruct (map_M_returns (iterencode fuel markers) items h) as [parts Hp].
      { intros x Hin. apply IH; [eapply instance_free_item; eassumption|].
        pose proof (value_depth_item _ _ Hin). lia. }
      eexists. erewrite bind_ok by exact Hp. reflexivity.
    + destruct (map_M_returns
                  (fun kv => bind (iterencode fuel markers (snd kv))
                               (fun text => ret (Render.json_string (fst kv) +:+ ": " +:+ text)))
                  (sort_items entries) h) as [parts Hp].
      { intros kv Hin. rewrite sort_items_perm in Hin.
        destruct (IH markers (snd kv) h) as [t Ht];
          [eapply instance_free_entry; eassumption | |].
        - pose proof (value_depth_entry _ _ Hin). lia.
        - eexists. erewrite bind_ok by exact Ht. reflexivity. }
      eexists. erewrite bind_ok by exact Hp. reflexivity.
Qed.



(** X13: an object that holds itself as an attribute is not encoded
    without end: when the encoder, going through the sorted entries of
    the dictionary [default_serialize] returned for the object, has
    written the instance-free values that come first and reaches the
    object itself, [serialize] raises [ValueError]. *)
Theorem serialize_detects_self_reference fuel (h : heap) o attrs h' d' pre k rest :
  default_serialize o default_remap h = (Ok attrs, h') ->
  h' !! attrs = Some d' ->
  sort_items d' = pre ++ (k, VObj o) :: rest ->
  (forall kv, kv ∈ pre ->
              instance_free (snd kv) = true /\ value_depth (snd kv) <= S fuel) ->
  serialize (S (S (S fuel))) (VObj o) h = (Raise ValueError, h').
Proof.
  intros Hd Hl Hs Hpre. unfold serialize. cbn [iterencode].
  rewrite bool_decide_eq_false_2 by apply not_elem_of_nil.
  erewrite bind_ok by exact Hd.
  erewrite bind_ok by (apply read_ok, Hl).
  rewrite Hs. erewrite bind_raise; [reflexivity|].
  apply map_M_raises.
  - intros kv Hin. destruct (Hpre kv Hin) as [Hf Hv].
    destruct (iterencode_plain (S fuel) [o] (snd kv) h' Hf Hv) as [t Ht].
    eexists. erewrite bind_ok by exact Ht. reflexivity.
  - cbn [snd]. erewrite bind_raise; [reflexivity|]. cbn [iterencode].
    now rewrite bool_decide_eq_true_2 by left.
Qed.

Lemma serialize_detects_self_reference_witness :
  serialize 3 (VObj 0) [[("id", VInt 1); ("parent_node", VObj 0)]]
  = (Raise ValueError,
     [[("id", VInt 1); ("parent_node", VObj 0)];
      [("id", VInt 1); ("parentNode", VObj 0)]]).
Proof.
  apply (serialize_detects_self_reference 0
           [[("id", VInt 1); ("parent_node", VObj 0)]] 0 1 _
           [("id", VInt 1); ("parentNode", VObj 0)]
           [("id", VInt 1)] "parentNode" []).
  - reflexivity.
  - reflexivity.
  - reflexivity.
  - intros kv Hin. apply elem_of_cons in Hin as [->|Hin]; [|inversion Hin].
    split; [reflexivity | cbn; lia].
Defined.




